(** * gcsx.TempFile: dirty-threshold and mtime tracking over an anonymous file

    A shallow embedding of [internal/gcsx/temp_file.go].  The Go struct
    [tempFile] is a record that every method takes and returns (the methods
    have pointer receivers and mutate it); the [*os.File] it wraps is a handle
    into a table of open files kept in the [World], together with the size
    limit of the file system that holds them, the number of clock readings
    taken so far and the trace of effects performed.

    The collaborators that the Go file imports ([os.File], [io.Copy],
    [fsutil.AnonymousFile], [timeutil.Clock]) are modelled by their behaviour
    on a regular file under Linux: the loops of the Go runtime over the read
    and write system calls, and the checks the kernel makes of offsets
    against 2^63-1 and against the limit of the file system.  Outcomes
    chosen by the environment (an I/O error, a short write) are explicit
    arguments. *)

From Stdlib Require Import ZArith List Lia String.
From stdpp Require Import base option list gmap.

Local Open Scope Z_scope.

(** ** Basic data *)

Abbreviation byte := Byte.byte.

(** [time.Time], as an instant counted in nanoseconds. *)
Definition Time := Z.

(** The identity of an [*os.File]; the nil pointer is [None : option fd]. *)
Abbreviation fd := nat.

Definition int64_min : Z := - 2 ^ 63.
Definition int64_max : Z := 2 ^ 63 - 1.
Definition in_int64 (z : Z) : Prop := int64_min <= z <= int64_max.

Inductive error : Type :=
| ErrInvalid                       (* os.ErrInvalid: method on a nil *os.File *)
| ErrClosed                        (* os.ErrClosed: file already closed *)
| EOF                              (* io.EOF *)
| ErrNegativeOffset                (* ReadAt / WriteAt with off < 0 *)
| EINVAL
| EFBIG
| ErrUnexpectedEOF                 (* io.ErrUnexpectedEOF *)
| Errno (code : nat)               (* any other error of the kernel *)
| ErrReader (code : nat)           (* an error of the content reader *)
| Errorf (prefix : string) (e : error).   (* fmt.Errorf("prefix: %v", e) *)

(** An open regular file: its bytes and the seek position of its
    descriptor. *)
Record File : Type := mkFile {
  contents : list byte;
  pos : Z
}.

Definition file_size (fl : File) : Z := Z.of_nat (length (contents fl)).

(** The calls made on an [*os.File]. *)
Inductive Call : Type :=
| CRead (n : nat)
| CWrite (b : list byte)
| CSeek (offset : Z) (whence : Z)
| CReadAt (n : nat) (off : Z)
| CWriteAt (b : list byte) (off : Z)
| CTruncate (size : Z)
| CClose.

(** The effects of the package, in program order: stores to the mutable
    fields of a [tempFile] and calls on its collaborators. *)
Inductive Event : Type :=
| StoreDestroyed (b : bool)
| StoreF (h : option fd)
| StoreDirtyThreshold (v : Z)
| StoreMtime (t : Time)
| ClockNow (t : Time)
| AnonymousFileCall (dir : string)
| FileCall (h : option fd) (c : Call).

Record World : Type := mkWorld {
  files : gmap fd File;      (* the open files *)
  ticks : nat;               (* clock readings taken so far *)
  trace : list Event;        (* effects so far, oldest first *)
  fs_limit : N               (* size limit of the file system of the files *)
}.

(** The largest size and offset of a file: the superblock's [s_maxbytes],
    which differs between file systems (16 TiB less a block on ext4 with
    4 KiB blocks, 2^63-1 on tmpfs) and which the kernel keeps at or below
    MAX_LFS_FILESIZE = 2^63-1. *)
Definition s_maxbytes (w : World) : Z :=
  Z.min int64_max (Z.of_N (fs_limit w)).

(** The largest request the Go runtime hands to one read or write system
    call on a file ([maxRW] of internal/poll). *)
Definition maxRW : Z := 2 ^ 30.

Definition emit (e : Event) (w : World) : World :=
  {| files := files w; ticks := ticks w; trace := trace w ++ [e];
     fs_limit := fs_limit w |}.

Definition set_file (d : fd) (fl : File) (w : World) : World :=
  {| files := <[d := fl]> (files w); ticks := ticks w; trace := trace w;
     fs_limit := fs_limit w |}.

Definition drop_file (d : fd) (w : World) : World :=
  {| files := delete d (files w); ticks := ticks w; trace := trace w;
     fs_limit := fs_limit w |}.

(** ** timeutil.Clock *)

(** A clock is the sequence of instants its successive [Now] calls return. *)
Record Clock : Type := mkClock { readings : nat -> Time }.

Definition Clock_Now (c : Clock) (w : World) : Time * World :=
  let t := readings c (ticks w) in
  (t, emit (ClockNow t)
        {| files := files w; ticks := S (ticks w); trace := trace w;
           fs_limit := fs_limit w |}).

(** ** os.File *)

(** [f.checkValid]: a nil receiver gives [ErrInvalid], a closed file
    [ErrClosed]. *)
Definition checkValid (h : option fd) (w : World) : error + (fd * File) :=
  match h with
  | None => inl ErrInvalid
  | Some d =>
      match files w !! d with
      | None => inl ErrClosed
      | Some fl => inr (d, fl)
      end
  end.

(** The bytes of a file after [b] has been written at offset [off]; a gap
    between the old end and [off] reads as zeros.  Writing no bytes changes
    nothing. *)
Definition write_bytes (data : list byte) (off : nat) (b : list byte)
  : list byte :=
  match b with
  | [] => data
  | _ :: _ =>
      take off data ++ replicate (off - length data)%nat Byte.x00
        ++ b ++ drop (off + length b)%nat data
  end.

(** The bytes of a file after ftruncate to [n] bytes. *)
Definition resize_bytes (data : list byte) (n : nat) : list byte :=
  take n data ++ replicate (n - length data)%nat Byte.x00.

(** *** The system calls *)

(** One read(2) or pread(2) of [c] bytes at offset [off] of a regular file:
    the kernel refuses a request that would pass the largest offset
    ([rw_verify_area]), and otherwise returns the bytes there are, none at or
    beyond the end of the file. *)
Definition sys_pread (data : list byte) (c : Z) (off : Z)
  : error + list byte :=
  if int64_max <? off + c then inl EINVAL
  else if Z.of_nat (length data) <=? off then inr []
  else inr (take (Z.to_nat c) (drop (Z.to_nat off) data)).

(** What is left of the bytes the environment lets through before it fails
    ([None]: it does not fail), once [n] more bytes were written. *)
Definition fault_after (n : nat) (fault : option (nat * error))
  : option (nat * error) :=
  match fault with
  | Some (k, e) => Some ((k - n)%nat, e)
  | None => None
  end.

(** One write(2) or pwrite(2) of the non-empty [b] at offset [off] of a
    regular file on a file system with size limit [lim]: refused when the
    request would pass the largest offset, or starts at or beyond the limit
    ([generic_write_checks]), or the environment fails at once; otherwise
    the bytes up to the limit, and up to the failure of the environment, are
    written and counted. *)
Definition sys_pwrite (lim : Z) (data b : list byte) (off : Z)
    (fault : option (nat * error)) : error + (list byte * nat) :=
  if int64_max <? off + Z.of_nat (length b) then inl EINVAL
  else if lim <=? off then inl EFBIG
  else
    match fault with
    | Some (O, e) => inl e
    | _ =>
        let fit := Z.to_nat (Z.min (Z.of_nat (length b)) (lim - off)) in
        let n := match fault with
                 | Some (k, _) => Nat.min fit k
                 | None => fit
                 end in
        inr (write_bytes data (Z.to_nat off) (take n b), n)
    end.

(** *** The loops of the Go runtime *)

(** The loop of [os.File.ReadAt]: pread until [rem] bytes were read or an
    error occurred; reading nothing is [io.EOF].  [fuel] bounds the number
    of system calls, each of which reads at least one byte. *)
Fixpoint pread_loop (fuel : nat) (data : list byte) (off rem : Z)
  : list byte * option error :=
  match fuel with
  | O => ([], None)
  | S fuel' =>
      if rem <=? 0 then ([], None)
      else
        match sys_pread data (Z.min rem maxRW) off with
        | inl e => ([], Some e)
        | inr [] => ([], Some EOF)
        | inr got =>
            let '(rest, err) :=
              pread_loop fuel' data (off + Z.of_nat (length got))
                (rem - Z.of_nat (length got)) in
            (got ++ rest, err)
        end
  end.

(** The loop of [poll.FD.Write] and [poll.FD.Pwrite]: write [p], of which
    [nn] bytes are written already, in requests of at most [maxRW] bytes,
    until all is written or a system call fails.  Returns the bytes of the
    file, the number of bytes of [p] written, and the error. *)
Fixpoint FD_Pwrite (fuel : nat) (lim : Z) (data p : list byte) (off : Z)
    (fault : option (nat * error)) (nn : nat)
  : list byte * nat * option error :=
  match fuel with
  | O => (data, nn, Some ErrUnexpectedEOF)
  | S fuel' =>
      let c := Z.to_nat (Z.min (Z.of_nat (length p - nn)) maxRW) in
      match sys_pwrite lim data (take c (drop nn p))
              (off + Z.of_nat nn) fault with
      | inl e => (data, nn, Some e)
      | inr (data', n) =>
          let nn' := (nn + n)%nat in
          if (nn' =? length p)%nat then (data', nn', None)
          else if (n =? 0)%nat then (data', nn', Some ErrUnexpectedEOF)
          else FD_Pwrite fuel' lim data' p off (fault_after n fault) nn'
      end
  end.

(** *** The methods *)

(** [os.File.Read]: one read of at most [maxRW] bytes from the seek
    position, which advances; reading nothing is [io.EOF]. *)
Definition os_File_Read (h : option fd) (n : nat) (w : World)
  : (list byte * option error) * World :=
  let w := emit (FileCall h (CRead n)) w in
  match checkValid h w with
  | inl e => (([], Some e), w)
  | inr (d, fl) =>
      match n with
      | O => (([], None), w)
      | S _ =>
          match sys_pread (contents fl) (Z.min (Z.of_nat n) maxRW)
                  (pos fl) with
          | inl e => (([], Some e), w)
          | inr [] => (([], Some EOF), w)
          | inr got =>
              ((got, None),
               set_file d {| contents := contents fl;
                             pos := pos fl + Z.of_nat (length got) |} w)
          end
      end
  end.

(** [os.File.Write]: at the seek position, which advances by the number
    of bytes written; the count is returned also when an error stopped the
    write. *)
Definition os_File_Write (h : option fd) (b : list byte)
    (env : option (nat * error)) (w : World) : (Z * option error) * World :=
  let w := emit (FileCall h (CWrite b)) w in
  match checkValid h w with
  | inl e => ((0, Some e), w)
  | inr (d, fl) =>
      if bool_decide (b = []) then ((0, None), w)
      else
        let '(data, nn, err) :=
          FD_Pwrite (length b) (s_maxbytes w) (contents fl) b (pos fl)
            env 0 in
        ((Z.of_nat nn, err),
         set_file d {| contents := data; pos := pos fl + Z.of_nat nn |} w)
  end.

(** [os.File.Seek]: [whence] is 0 (start), 1 (current) or 2 (end); a
    position that is negative or beyond the limit of the file system is
    refused and the position stays. *)
Definition os_File_Seek (h : option fd) (offset : Z) (whence : Z) (w : World)
  : (Z * option error) * World :=
  let w := emit (FileCall h (CSeek offset whence)) w in
  match checkValid h w with
  | inl e => ((0, Some e), w)
  | inr (d, fl) =>
      let base :=
        if whence =? 0 then Some 0
        else if whence =? 1 then Some (pos fl)
        else if whence =? 2 then Some (file_size fl)
        else None in
      match base with
      | None => ((0, Some EINVAL), w)
      | Some o =>
          let r := o + offset in
          if (r <? 0) || (s_maxbytes w <? r) then ((0, Some EINVAL), w)
          else ((r, None),
                set_file d {| contents := contents fl; pos := r |} w)
      end
  end.

(** [os.File.ReadAt]: the seek position is not used and not moved; fewer
    than [n] bytes come with an error, [io.EOF] at the end of the file. *)
Definition os_File_ReadAt (h : option fd) (n : nat) (off : Z) (w : World)
  : (list byte * option error) * World :=
  let w := emit (FileCall h (CReadAt n off)) w in
  match checkValid h w with
  | inl e => (([], Some e), w)
  | inr (d, fl) =>
      if off <? 0 then (([], Some ErrNegativeOffset), w)
      else (pread_loop (S n) (contents fl) off (Z.of_nat n), w)
  end.

(** [os.File.WriteAt]: the seek position is not used and not moved.  The
    count is that of the completed pwrite calls: when the write fails the
    bytes already written stay in the file but are not counted. *)
Definition os_File_WriteAt (h : option fd) (b : list byte) (off : Z)
    (env : option (nat * error)) (w : World) : (Z * option error) * World :=
  let w := emit (FileCall h (CWriteAt b off)) w in
  match checkValid h w with
  | inl e => ((0, Some e), w)
  | inr (d, fl) =>
      if off <? 0 then ((0, Some ErrNegativeOffset), w)
      else if bool_decide (b = []) then ((0, None), w)
      else
        let '(data, nn, err) :=
          FD_Pwrite (length b) (s_maxbytes w) (contents fl) b off env 0 in
        let w := set_file d {| contents := data; pos := pos fl |} w in
        match err with
        | Some e => ((0, Some e), w)
        | None => ((Z.of_nat nn, None), w)
        end
  end.

(** [os.File.Truncate]. *)
Definition os_File_Truncate (h : option fd) (size : Z) (env : option error)
    (w : World) : option error * World :=
  let w := emit (FileCall h (CTruncate size)) w in
  match checkValid h w with
  | inl e => (Some e, w)
  | inr (d, fl) =>
      if size <? 0 then (Some EINVAL, w)
      else if s_maxbytes w <? size then (Some EFBIG, w)
      else
        match env with
        | Some e => (Some e, w)
        | None =>
            (None,
             set_file d
               {| contents := resize_bytes (contents fl) (Z.to_nat size);
                  pos := pos fl |} w)
        end
  end.

(** [os.File.Close]: the file leaves the table of open files. *)
Definition os_File_Close (h : option fd) (w : World) : option error * World :=
  let w := emit (FileCall h CClose) w in
  match checkValid h w with
  | inl e => (Some e, w)
  | inr (d, _) => (None, drop_file d w)
  end.

(** ** fsutil.AnonymousFile and io.Copy *)

(** [fsutil.AnonymousFile dir]: a fresh, empty, unlinked file, or the error
    the environment answers with. *)
Definition fsutil_AnonymousFile (dir : string) (env : option error)
    (w : World) : (option fd * option error) * World :=
  let w := emit (AnonymousFileCall dir) w in
  match env with
  | Some e => ((None, Some e), w)
  | None =>
      let d := fresh (dom (files w)) in
      ((Some d, None), set_file d {| contents := []; pos := 0 |} w)
  end.

(** An [io.Reader]: the bytes it delivers, and the error (if any) it ends
    with in place of [io.EOF]. *)
Record Reader : Type := mkReader {
  payload : list byte;
  failure : option error
}.

(** [io.Copy dst src]: writes what [src] delivers until [src] is exhausted or
    an error occurs; returns the number of bytes written and the first
    error. *)
Definition io_Copy (dst : option fd) (src : Reader)
    (env : option (nat * error)) (w : World) : (Z * option error) * World :=
  let '((n, werr), w) := os_File_Write dst (payload src) env w in
  match werr with
  | Some e => ((n, Some e), w)
  | None => ((n, failure src), w)
  end.

(** ** The tempFile struct *)

Record tempFile : Type := mkTempFile {
  clock : Clock;
  destroyed : bool;
  f : option fd;
  dirtyThreshold : Z;
  mtime : option Time
}.

Record StatResult : Type := mkStatResult {
  Size : Z;
  DirtyThreshold : Z;
  Mtime : option Time
}.

Definition set_destroyed (b : bool) (tf : tempFile) : tempFile :=
  {| clock := clock tf; destroyed := b; f := f tf;
     dirtyThreshold := dirtyThreshold tf; mtime := mtime tf |}.

Definition set_f (h : option fd) (tf : tempFile) : tempFile :=
  {| clock := clock tf; destroyed := destroyed tf; f := h;
     dirtyThreshold := dirtyThreshold tf; mtime := mtime tf |}.

Definition set_dirtyThreshold (v : Z) (tf : tempFile) : tempFile :=
  {| clock := clock tf; destroyed := destroyed tf; f := f tf;
     dirtyThreshold := v; mtime := mtime tf |}.

Definition set_mtime (t : Time) (tf : tempFile) : tempFile :=
  {| clock := clock tf; destroyed := destroyed tf; f := f tf;
     dirtyThreshold := dirtyThreshold tf; mtime := Some t |}.

(** ** Helpers *)

Definition minInt64 (a b : Z) : Z := if a <? b then a else b.

(** ** Construction *)

(** What the environment answers during [NewTempFile]. *)
Record CreateEnv : Type := mkCreateEnv {
  alloc_fault : option error;
  copy_fault : option (nat * error)
}.

Definition NewTempFile (content : Reader) (dir : string) (clk : Clock)
    (env : CreateEnv) (w : World) : (option tempFile * option error) * World :=
  let '((fh, err), w) := fsutil_AnonymousFile dir (alloc_fault env) w in
  match err with
  | Some e => ((None, Some (Errorf "AnonymousFile" e)), w)
  | None =>
      let '((size, err), w) := io_Copy fh content (copy_fault env) w in
      match err with
      | Some e => ((None, Some (Errorf "copy" e)), w)
      | None =>
          ((Some {| clock := clk; destroyed := false; f := fh;
                    dirtyThreshold := size; mtime := None |}, None), w)
      end
  end.

(** ** Public interface *)

Definition Destroy (tf : tempFile) (w : World) : tempFile * World :=
  let tf := set_destroyed true tf in
  let w := emit (StoreDestroyed true) w in
  let '(_, w) := os_File_Close (f tf) w in
  (set_f None tf, emit (StoreF None) w).

Definition Read (n : nat) (tf : tempFile) (w : World)
  : (list byte * option error) * tempFile * World :=
  let '(r, w) := os_File_Read (f tf) n w in (r, tf, w).

Definition Seek (offset : Z) (whence : Z) (tf : tempFile) (w : World)
  : (Z * option error) * tempFile * World :=
  let '(r, w) := os_File_Seek (f tf) offset whence w in (r, tf, w).

Definition ReadAt (n : nat) (offset : Z) (tf : tempFile) (w : World)
  : (list byte * option error) * tempFile * World :=
  let '(r, w) := os_File_ReadAt (f tf) n offset w in (r, tf, w).

Definition Stat (tf : tempFile) (w : World)
  : (StatResult * option error) * tempFile * World :=
  let '((size, err), w) := os_File_Seek (f tf) 0 2 w in
  let sr := {| Size := size; DirtyThreshold := dirtyThreshold tf;
               Mtime := mtime tf |} in
  match err with
  | Some e => ((sr, Some (Errorf "Seek" e)), tf, w)
  | None => ((sr, None), tf, w)
  end.

Definition WriteAt (p : list byte) (offset : Z) (env : option (nat * error))
    (tf : tempFile) (w : World) : (Z * option error) * tempFile * World :=
  let v := minInt64 (dirtyThreshold tf) offset in
  let tf := set_dirtyThreshold v tf in
  let w := emit (StoreDirtyThreshold v) w in
  let '(newMtime, w) := Clock_Now (clock tf) w in
  let tf := set_mtime newMtime tf in
  let w := emit (StoreMtime newMtime) w in
  let '(r, w) := os_File_WriteAt (f tf) p offset env w in
  (r, tf, w).

Definition Truncate (n : Z) (env : option error) (tf : tempFile) (w : World)
  : option error * tempFile * World :=
  let v := minInt64 (dirtyThreshold tf) n in
  let tf := set_dirtyThreshold v tf in
  let w := emit (StoreDirtyThreshold v) w in
  let '(newMtime, w) := Clock_Now (clock tf) w in
  let tf := set_mtime newMtime tf in
  let w := emit (StoreMtime newMtime) w in
  let '(r, w) := os_File_Truncate (f tf) n env w in
  (r, tf, w).

Definition SetMtime (t : Time) (tf : tempFile) (w : World)
  : tempFile * World :=
  (set_mtime t tf, emit (StoreMtime t) w).

(** The values [CheckInvariants] panics with. *)
Inductive panic : Type :=
| UseOfDestroyed
| PanicSeek (e : error)
| PanicStat (e : error)
| Mismatch (threshold size : Z).

(** [CheckInvariants]: [None] when it returns, [Some v] when it panics with
    [v].  The deferred [Seek] also runs when the body panics, and a panic of
    its own replaces the body's. *)
Definition CheckInvariants (tf : tempFile) (w : World)
  : option panic * tempFile * World :=
  if destroyed tf then (Some UseOfDestroyed, tf, w)
  else
    let '((p0, err), tf, w) := Seek 0 1 tf w in
    match err with
    | Some e => (Some (PanicSeek e), tf, w)
    | None =>
        let '(body, tf, w) :=
          let '((sr, err), tf, w) := Stat tf w in
          match err with
          | Some e => (Some (PanicStat e), tf, w)
          | None =>
              if negb (DirtyThreshold sr <=? Size sr)
              then (Some (Mismatch (DirtyThreshold sr) (Size sr)), tf, w)
              else if bool_decide (mtime tf = None)
                        && negb (DirtyThreshold sr =? Size sr)
              then (Some (Mismatch (DirtyThreshold sr) (Size sr)), tf, w)
              else (None, tf, w)
          end in
        let '((_, err), tf, w) := Seek p0 0 tf w in
        match err with
        | Some e => (Some (PanicSeek e), tf, w)
        | None => (body, tf, w)
        end
    end.

(** ** Sequences of calls *)

Inductive Op : Type :=
| OpRead (n : nat)
| OpSeek (offset : Z) (whence : Z)
| OpReadAt (n : nat) (offset : Z)
| OpWriteAt (p : list byte) (offset : Z) (env : option (nat * error))
| OpTruncate (n : Z) (env : option error)
| OpStat
| OpSetMtime (t : Time)
| OpCheckInvariants
| OpDestroy.

(** One call; the first component is the panic, if the call panicked. *)
Definition step (o : Op) (tf : tempFile) (w : World)
  : option panic * tempFile * World :=
  match o with
  | OpRead n => let '(_, tf, w) := Read n tf w in (None, tf, w)
  | OpSeek off wh => let '(_, tf, w) := Seek off wh tf w in (None, tf, w)
  | OpReadAt n off => let '(_, tf, w) := ReadAt n off tf w in (None, tf, w)
  | OpWriteAt p off env =>
      let '(_, tf, w) := WriteAt p off env tf w in (None, tf, w)
  | OpTruncate n env =>
      let '(_, tf, w) := Truncate n env tf w in (None, tf, w)
  | OpStat => let '(_, tf, w) := Stat tf w in (None, tf, w)
  | OpSetMtime t => let '(tf, w) := SetMtime t tf w in (None, tf, w)
  | OpCheckInvariants => CheckInvariants tf w
  | OpDestroy => let '(tf, w) := Destroy tf w in (None, tf, w)
  end.

(** A sequence of calls, stopping at the first panic. *)
Fixpoint run (ops : list Op) (tf : tempFile) (w : World)
  : option panic * tempFile * World :=
  match ops with
  | [] => (None, tf, w)
  | o :: ops' =>
      match step o tf w with
      | (Some v, tf, w) => (Some v, tf, w)
      | (None, tf, w) => run ops' tf w
      end
  end.

Definition is_destroy (o : Op) : bool :=
  match o with OpDestroy => true | _ => false end.

Definition is_mutation (o : Op) : bool :=
  match o with OpWriteAt _ _ _ | OpTruncate _ _ => true | _ => false end.

Definition sets_mtime (o : Op) : bool :=
  match o with
  | OpWriteAt _ _ _ | OpTruncate _ _ | OpSetMtime _ => true
  | _ => false
  end.

(** A sequence without [Destroy]. *)
Definition no_destroy (ops : list Op) : bool :=
  forallb (fun o => negb (is_destroy o)) ops.

(** The offsets and sizes handed to [WriteAt] and [Truncate] are all
    non-negative. *)
Definition nonneg_arg (o : Op) : bool :=
  match o with
  | OpWriteAt _ off _ => 0 <=? off
  | OpTruncate n _ => 0 <=? n
  | _ => true
  end.

(** The offsets, sizes and positions handed to a call fit in an int64, as
    the Go types require. *)
Definition int64_args (o : Op) : bool :=
  match o with
  | OpSeek off _ | OpReadAt _ off | OpWriteAt _ off _ | OpTruncate off _ =>
      (int64_min <=? off) && (off <=? int64_max)
  | _ => true
  end.

(** What a call makes of the dirty threshold. *)
Definition threshold_after (o : Op) (dt : Z) : Z :=
  match o with
  | OpWriteAt _ off _ => Z.min dt off
  | OpTruncate n _ => Z.min dt n
  | _ => dt
  end.

(** ** Observations *)

(** The bytes behind a handle, when it is an open file. *)
Definition contents_of (h : option fd) (w : World) : option (list byte) :=
  match h with
  | None => None
  | Some d => contents <$> files w !! d
  end.

(** The size of the content behind a [tempFile], when its file is open. *)
Definition content_size (tf : tempFile) (w : World) : option Z :=
  (fun b => Z.of_nat (length b)) <$> contents_of (f tf) w.

(** The seek position of the file behind a [tempFile]. *)
Definition cursor (tf : tempFile) (w : World) : option Z :=
  match f tf with
  | None => None
  | Some d => pos <$> files w !! d
  end.

(** The struct and the world once [WriteAt] or [Truncate], called with the
    offset or size [v], has updated the metadata and is about to call the
    file. *)
Definition metadata_updated (tf : tempFile) (v : Z) (w : World) : tempFile :=
  set_mtime (readings (clock tf) (ticks w))
    (set_dirtyThreshold (Z.min (dirtyThreshold tf) v) tf).

Definition world_before_delegation (tf : tempFile) (v : Z) (w : World)
  : World :=
  {| files := files w; ticks := S (ticks w);
     trace := trace w ++
       [StoreDirtyThreshold (Z.min (dirtyThreshold tf) v);
        ClockNow (readings (clock tf) (ticks w));
        StoreMtime (readings (clock tf) (ticks w))];
     fs_limit := fs_limit w |}.

(** The state of a live [tempFile]: the two INVARIANT comments of the
    struct, and the bounds that keep sizes and positions within the limit of
    the file system, hence within int64. *)
Definition Inv (tf : tempFile) (w : World) : Prop :=
  destroyed tf = false /\
  exists d fl, f tf = Some d /\ files w !! d = Some fl /\
    dirtyThreshold tf <= file_size fl <= s_maxbytes w /\
    0 <= pos fl <= s_maxbytes w /\
    (mtime tf = None -> dirtyThreshold tf = file_size fl).

(** ** A running example *)

(** The limits of two file systems: tmpfs, and ext4 with 4 KiB blocks. *)
Definition tmpfs_limit : N := 9223372036854775807.
Definition ext4_limit : N := 17592186040320.

Definition w0 : World :=
  {| files := ∅; ticks := 0; trace := []; fs_limit := tmpfs_limit |}.

Definition ex_clock : Clock := {| readings := fun n => 100 + Z.of_nat n |}.

Definition ex_content : Reader :=
  {| payload := [Byte.x61; Byte.x62; Byte.x63]; failure := None |}.

Definition ex_env : CreateEnv := {| alloc_fault := None; copy_fault := None |}.

(** The buffer and world that [NewTempFile ex_content "" ex_clock ex_env w0]
    returns. *)
Definition ex_tf : tempFile :=
  {| clock := ex_clock; destroyed := false; f := Some 0%nat;
     dirtyThreshold := 3; mtime := None |}.

Definition ex_w : World :=
  {| files := {[ 0%nat := {| contents := [Byte.x61; Byte.x62; Byte.x63];
                             pos := 3 |} ]};
     ticks := 0;
     trace := [AnonymousFileCall "";
               FileCall (Some 0%nat)
                 (CWrite [Byte.x61; Byte.x62; Byte.x63])];
     fs_limit := tmpfs_limit |}.

(** The same files on ext4. *)
Definition ex_w_ext4 : World :=
  {| files := files ex_w; ticks := 0; trace := []; fs_limit := ext4_limit |}.


(** A reader that fails after delivering two bytes. *)
Definition ex_failing_content : Reader :=
  {| payload := [Byte.x61; Byte.x62]; failure := Some (ErrReader 5) |}.

(** The ten-byte buffer of the documented scenarios, and what [Stat] reports
    after a sequence of calls on it. *)
Definition ex_ten : Reader :=
  {| payload := [Byte.x30; Byte.x31; Byte.x32; Byte.x33; Byte.x34;
                 Byte.x35; Byte.x36; Byte.x37; Byte.x38; Byte.x39];
     failure := None |}.

Definition stat_after (ops : list Op) : option (StatResult * option error) :=
  match NewTempFile ex_ten "" ex_clock ex_env w0 with
  | ((Some tf, _), w) =>
      let '(_, tf, w) := run ops tf w in Some (Stat tf w).1.1
  | _ => None
  end.

(** ** Further observations *)

(** The offsets and sizes of the [WriteAt] and [Truncate] calls of a
    sequence, in call order. *)
Fixpoint mutation_args (ops : list Op) : list Z :=
  match ops with
  | [] => []
  | OpWriteAt _ off _ :: ops' => off :: mutation_args ops'
  | OpTruncate n _ :: ops' => n :: mutation_args ops'
  | _ :: ops' => mutation_args ops'
  end.

(** No call of the sequence is [WriteAt], [Truncate] or [SetMtime]. *)
Definition no_setter (ops : list Op) : bool :=
  forallb (fun o => negb (sets_mtime o)) ops.

(** [w'] has the same clock count as [w], and the same files except
    possibly the one behind the handle [h]. *)
Definition only_touches (h : option fd) (w w' : World) : Prop :=
  ticks w' = ticks w /\
  forall d, h <> Some d -> files w' !! d = files w !! d.

(** What [CheckInvariants] requires of a buffer whose file is [fl]: the two
    INVARIANT comments. *)
Definition invariants_hold (tf : tempFile) (fl : File) : Prop :=
  dirtyThreshold tf <= file_size fl /\
  (mtime tf = None -> dirtyThreshold tf = file_size fl).

(** The bytes of the buffer below its [dirtyThreshold] are those of
    [seed]. *)
Definition unmodified_below (seed : list byte) (tf : tempFile) (w : World)
  : Prop :=
  exists data,
    contents_of (f tf) w = Some data /\
    take (Z.to_nat (dirtyThreshold tf)) data
    = take (Z.to_nat (dirtyThreshold tf)) seed.

(** * Properties *)

(** ** Arithmetic and byte-level facts *)

Lemma minInt64_spec a b : minInt64 a b = Z.min a b.
Proof. unfold minInt64. destruct (Z.ltb_spec a b); lia. Qed.

Lemma length_write_bytes (data : list byte) (off : nat) (b : list byte) :
  b ≠ [] →
  length (write_bytes data off b) = (length data `max` (off + length b))%nat.
Proof.
  destruct b as [|x b]; [done|]; intros _. unfold write_bytes.
  rewrite !length_app, length_take, length_replicate, length_drop. simpl. lia.
Qed.

Lemma length_write_bytes_ge (data : list byte) (off : nat) (b : list byte) :
  (length data ≤ length (write_bytes data off b))%nat.
Proof.
  destruct b as [|x b]; [done|]. rewrite length_write_bytes by done. lia.
Qed.

Lemma length_resize_bytes (data : list byte) (n : nat) :
  length (resize_bytes data n) = n.
Proof.
  unfold resize_bytes. rewrite length_app, length_take, length_replicate. lia.
Qed.

Lemma write_bytes_cons (data : list byte) off x b :
  write_bytes data off (x :: b)
  = take off data ++ replicate (off - length data)%nat Byte.x00
      ++ (x :: b) ++ drop (off + length (x :: b))%nat data.
Proof. done. Qed.

(** Two writes, the second where the first ended, are one write of the
    bytes of both. *)
Lemma write_bytes_app (data : list byte) off b1 b2 :
  write_bytes (write_bytes data off b1) (off + length b1) b2
  = write_bytes data off (b1 ++ b2).
Proof.
  destruct b2 as [|y b2]; [by rewrite app_nil_r|].
  destruct b1 as [|x b1]; [by rewrite Nat.add_0_r|].
  assert (length (write_bytes data off (x :: b1))
          = (length data `max` (off + length (x :: b1)))%nat) as Hlen
    by (by apply length_write_bytes).
  assert (length (take off data ++ replicate (off - length data) Byte.x00
                    ++ x :: b1) = (off + length (x :: b1))%nat) as Hpre.
  { rewrite !length_app, length_take, length_replicate. lia. }
  rewrite (write_bytes_cons (write_bytes data off (x :: b1)) _ y b2).
  replace (off + length (x :: b1) - length (write_bytes data off (x :: b1)))%nat
    with 0%nat by lia.
  simpl replicate. rewrite app_nil_l.
  rewrite (write_bytes_cons data off x b1).
  rewrite (app_assoc (take off data)), (app_assoc _ (x :: b1)).
  rewrite <- (app_assoc (take off data)).
  rewrite take_app_length' by done.
  rewrite drop_app_ge by lia. rewrite Hpre, drop_drop.
  change ((x :: b1) ++ y :: b2) with (x :: (b1 ++ y :: b2)).
  rewrite (write_bytes_cons data off x (b1 ++ y :: b2)).
  rewrite <- !app_assoc. do 2 f_equal.
  change (x :: b1 ++ y :: b2) with ((x :: b1) ++ y :: b2).
  rewrite <- app_assoc. do 2 f_equal.
  f_equal. rewrite length_app. lia.
Qed.

(** ** The system calls and the loops of the runtime *)

Lemma maxRW_pos : 1 <= maxRW.
Proof. done. Qed.

Lemma sys_pread_bytes (data : list byte) c off :
  0 <= off →
  sys_pread data c off =
    if int64_max <? off + c then inl EINVAL
    else inr (take (Z.to_nat c) (drop (Z.to_nat off) data)).
Proof.
  intros Hoff. unfold sys_pread. destruct (int64_max <? off + c); [done|].
  destruct (Z.leb_spec (Z.of_nat (length data)) off); [|done].
  by rewrite drop_ge, take_nil by lia.
Qed.

(** A pwrite that succeeds wrote the first [n] bytes of the request, and
    nothing beyond the limit of the file system. *)
Lemma sys_pwrite_inr lim (data b : list byte) off fault data' n :
  sys_pwrite lim data b off fault = inr (data', n) →
  data' = write_bytes data (Z.to_nat off) (take n b) ∧
  (n ≤ length b)%nat ∧ off + Z.of_nat n <= lim ∧
  (b ≠ [] → (1 ≤ n)%nat).
Proof.
  unfold sys_pwrite. destruct (int64_max <? _); [done|].
  destruct (Z.leb_spec lim off); [done|].
  destruct fault as [[[|k] e]|]; [done| |]; intros [= <- <-];
    (split; [done|]); (split; [lia|]); (split; [lia|]);
    intros Hb; destruct b; (done || simpl length; lia).
Qed.

(** What the write loop returns: some first part of [p] was written, in
    one piece, within the limit; without an error it is all of [p]. *)
Lemma FD_Pwrite_spec fuel lim (data p : list byte) off fault nn :
  0 <= off → (nn ≤ length p)%nat →
  let '(data', nn', err) := FD_Pwrite fuel lim data p off fault nn in
  (nn ≤ nn' ≤ length p)%nat ∧
  (err = None → nn' = length p) ∧
  data' = write_bytes data (Z.to_nat off + nn) (take (nn' - nn) (drop nn p)) ∧
  ((nn < nn')%nat → off + Z.of_nat nn' <= lim).
Proof.
  intros Hoff. revert data fault nn.
  induction fuel as [|fuel IH]; intros data fault nn Hnn; simpl.
  { rewrite Nat.sub_diag. simpl. repeat split; (done || lia). }
  set (c := Z.to_nat (Z.min (Z.of_nat (length p - nn)) maxRW)).
  destruct (sys_pwrite lim data (take c (drop nn p)) (off + Z.of_nat nn)
              fault) as [e|[data1 n]] eqn:Hsys.
  { rewrite Nat.sub_diag. simpl. repeat split; (done || lia). }
  apply sys_pwrite_inr in Hsys as (-> & Hn & Hlim & _).
  rewrite length_take, length_drop in Hn.
  assert (take n (take c (drop nn p)) = take n (drop nn p)) as Htake
    by (rewrite take_take; f_equal; lia).
  rewrite Htake.
  replace (Z.to_nat (off + Z.of_nat nn)) with (Z.to_nat off + nn)%nat by lia.
  destruct (Nat.eqb_spec (nn + n) (length p)) as [Heq|Hne].
  { replace (nn + n - nn)%nat with n by lia.
    repeat split; (done || lia). }
  destruct (Nat.eqb_spec n 0) as [->|Hn0].
  { rewrite Nat.add_0_r, Nat.sub_diag. simpl. repeat split; (done || lia). }
  clearbody c.
  assert (nn + n ≤ length p)%nat as Hnn' by (clear -Hn Hnn; lia).
  specialize (IH (write_bytes data (Z.to_nat off + nn) (take n (drop nn p)))
                (fault_after n fault) (nn + n)%nat Hnn').
  destruct (FD_Pwrite fuel lim _ p off (fault_after n fault) (nn + n))
    as [[data' nn'] err].
  destruct IH as (Hle & Herr & -> & Hl). split; [lia|]. split; [done|].
  split;
    [|intros; destruct (decide (nn + n < nn')%nat); [by apply Hl|lia]].
  assert (length (take n (drop nn p)) = n) as Hlen
    by (rewrite length_take, length_drop; lia).
  replace (Z.to_nat off + (nn + n))%nat
    with (Z.to_nat off + nn + length (take n (drop nn p)))%nat by lia.
  rewrite write_bytes_app. f_equal.
  rewrite <- (drop_drop p n nn), take_take_drop. f_equal. lia.
Qed.

(** With room in the file system and no failure of the environment the
    loop writes all of [p]. *)
Lemma FD_Pwrite_all fuel lim (data p : list byte) off nn :
  0 <= off → off + Z.of_nat (length p) <= lim → lim <= int64_max →
  (nn < length p)%nat → (length p - nn ≤ fuel)%nat →
  FD_Pwrite fuel lim data p off None nn
  = (write_bytes data (Z.to_nat off + nn) (drop nn p), length p, None).
Proof.
  intros Hoff Hroom Hlim. revert data nn.
  induction fuel as [|fuel IH]; intros data nn Hnn Hfuel; [lia|]. simpl.
  set (c := Z.to_nat (Z.min (Z.of_nat (length p - nn)) maxRW)).
  assert (1 ≤ c ≤ length p - nn)%nat as Hc
    by (pose proof maxRW_pos; unfold c; lia).
  clearbody c.
  assert (length (take c (drop nn p)) = c) as Hlen
    by (rewrite length_take, length_drop; lia).
  unfold sys_pwrite. rewrite Hlen.
  destruct (Z.ltb_spec int64_max (off + Z.of_nat nn + Z.of_nat c)); [lia|].
  destruct (Z.leb_spec lim (off + Z.of_nat nn)); [lia|].
  replace (Z.to_nat (Z.min (Z.of_nat c) (lim - (off + Z.of_nat nn))))
    with c by lia.
  rewrite firstn_all2 by lia.
  replace (Z.to_nat (off + Z.of_nat nn)) with (Z.to_nat off + nn)%nat by lia.
  destruct (Nat.eqb_spec (nn + c) (length p)) as [Heq|Hne].
  { rewrite take_ge by (rewrite length_drop; lia). by rewrite Heq. }
  destruct (Nat.eqb_spec c 0) as [?|_]; [lia|].
  rewrite IH by lia. f_equal. f_equal.
  replace (Z.to_nat off + (nn + c))%nat
    with (Z.to_nat off + nn + length (take c (drop nn p)))%nat by lia.
  rewrite write_bytes_app. f_equal.
  rewrite <- (drop_drop p c nn). apply take_drop.
Qed.

(** While no request passes the largest offset, the read loop returns the
    bytes of the file from [off] on, at most [rem] of them, with [io.EOF]
    when they are fewer. *)
Lemma pread_loop_no_overflow fuel (data : list byte) off rem :
  0 <= off → off + rem <= int64_max → rem <= Z.of_nat fuel →
  pread_loop fuel data off rem =
    (take (Z.to_nat rem) (drop (Z.to_nat off) data),
     if Z.of_nat (length (take (Z.to_nat rem) (drop (Z.to_nat off) data)))
          <? rem
     then Some EOF else None).
Proof.
  revert off rem. induction fuel as [|fuel IH]; intros off rem Hoff Hmax Hf;
    cbn [pread_loop].
  { replace (Z.to_nat rem) with 0%nat by lia. rewrite take_0.
    change (Z.of_nat (length (@nil byte))) with 0.
    destruct (Z.ltb_spec 0 rem); [lia|done]. }
  destruct (Z.leb_spec rem 0) as [Hr|Hr].
  { replace (Z.to_nat rem) with 0%nat by lia. rewrite take_0.
    change (Z.of_nat (length (@nil byte))) with 0.
    destruct (Z.ltb_spec 0 rem); [lia|done]. }
  rewrite sys_pread_bytes by done.
  assert (1 <= Z.min rem maxRW <= rem) as Hc by (pose proof maxRW_pos; lia).
  destruct (Z.ltb_spec int64_max (off + Z.min rem maxRW)); [lia|].
  set (L := drop (Z.to_nat off) data).
  set (c := Z.to_nat (Z.min rem maxRW)).
  assert (1 ≤ c ≤ Z.to_nat rem)%nat as Hc' by lia.
  destruct (take c L) as [|x got] eqn:Hgot.
  { assert (L = []) as ->.
    { destruct L; [done|]. destruct c; [lia|done]. }
    rewrite take_nil. change (Z.of_nat (length (@nil byte))) with 0.
    destruct (Z.ltb_spec 0 rem); [done|lia]. }
  assert (1 ≤ length (take c L))%nat as Hpos by (rewrite Hgot; simpl; lia).
  rewrite <- Hgot. clear x got Hgot.
  assert (length (take c L) = (c `min` length L)%nat) as Hlen
    by apply length_take.
  rewrite IH by lia.
  replace (drop (Z.to_nat (off + Z.of_nat (length (take c L)))) data)
    with (drop (length (take c L)) L)
    by (unfold L; rewrite drop_drop; f_equal; lia).
  assert (take c L ++
          take (Z.to_nat (rem - Z.of_nat (length (take c L))))
            (drop (length (take c L)) L)
          = take (Z.to_nat rem) L) as Hcat.
  { destruct (decide (c ≤ length L)%nat) as [Hle|Hgt].
    - rewrite Hlen, Nat.min_l by done.
      rewrite take_take_drop. f_equal. lia.
    - rewrite (take_ge L c) by lia.
      rewrite (drop_ge L (length L)) by lia. rewrite take_nil, app_nil_r.
      by rewrite take_ge by lia. }
  rewrite Hcat. f_equal.
  rewrite !length_take, length_drop.
  repeat match goal with
         | |- context [?a <? ?b] => destruct (Z.ltb_spec a b)
         end; (done || lia).
Qed.

(** [fuel] never runs out: one more system call changes nothing. *)
Lemma pread_loop_fuel fuel (data : list byte) off rem :
  rem <= Z.of_nat fuel →
  pread_loop (S fuel) data off rem = pread_loop fuel data off rem.
Proof.
  revert off rem. induction fuel as [|fuel IH]; intros off rem Hf.
  { simpl. destruct (Z.leb_spec rem 0); [done|lia]. }
  change (pread_loop (S (S fuel)) data off rem)
    with (if rem <=? 0 then ([], None)
          else match sys_pread data (Z.min rem maxRW) off with
               | inl e => ([], Some e)
               | inr [] => ([], Some EOF)
               | inr got =>
                   let '(rest, err) :=
                     pread_loop (S fuel) data (off + Z.of_nat (length got))
                       (rem - Z.of_nat (length got)) in
                   (got ++ rest, err)
               end).
  change (pread_loop (S fuel) data off rem)
    with (if rem <=? 0 then ([], None)
          else match sys_pread data (Z.min rem maxRW) off with
               | inl e => ([], Some e)
               | inr [] => ([], Some EOF)
               | inr got =>
                   let '(rest, err) :=
                     pread_loop fuel data (off + Z.of_nat (length got))
                       (rem - Z.of_nat (length got)) in
                   (got ++ rest, err)
               end).
  destruct (rem <=? 0); [done|].
  destruct (sys_pread _ _ _) as [e|[|x got]]; [done|done|].
  rewrite IH by (simpl length; lia). done.
Qed.

(** The write loop does not run out of fuel either: the
    [io.ErrUnexpectedEOF] of its last branch is never its answer, unless
    the environment itself fails with that error. *)
Lemma FD_Pwrite_fuel fuel lim (data p : list byte) off fault nn :
  (nn < length p)%nat → (length p - nn ≤ fuel)%nat →
  (∀ k, fault ≠ Some (k, ErrUnexpectedEOF)) →
  (FD_Pwrite fuel lim data p off fault nn).2 ≠ Some ErrUnexpectedEOF.
Proof.
  revert data fault nn. induction fuel as [|fuel IH];
    intros data fault nn Hnn Hfuel Hfault; [lia|]. simpl.
  set (c := Z.to_nat (Z.min (Z.of_nat (length p - nn)) maxRW)).
  assert (1 ≤ c ≤ length p - nn)%nat as Hc
    by (pose proof maxRW_pos; unfold c; lia).
  clearbody c.
  assert (take c (drop nn p) ≠ []) as Hne.
  { intros H%(f_equal length). rewrite length_take, length_drop in H.
    simpl in H. lia. }
  destruct (sys_pwrite lim data (take c (drop nn p)) (off + Z.of_nat nn)
              fault) as [e|[data1 n]] eqn:Hsys.
  { simpl. revert Hsys. unfold sys_pwrite.
    repeat case_match; intros; simplify_eq; try done.
    intros [= ->]. by eapply Hfault. }
  apply sys_pwrite_inr in Hsys as (-> & Hn & _ & Hn1).
  specialize (Hn1 Hne). rewrite length_take, length_drop in Hn.
  destruct (Nat.eqb_spec (nn + n) (length p)); [done|].
  destruct (Nat.eqb_spec n 0); [lia|].
  apply IH; [lia..|].
  intros k Hk. destruct fault as [[k' e']|]; [|done]. simpl in Hk.
  simplify_eq. by eapply Hfault.
Qed.

(** ** The file table *)

Lemma files_set_file d fl w : files (set_file d fl w) !! d = Some fl.
Proof. apply lookup_insert_eq. Qed.

Lemma files_emit e w : files (emit e w) = files w.
Proof. done. Qed.

Lemma s_maxbytes_bounds w : 0 <= s_maxbytes w <= int64_max.
Proof. unfold s_maxbytes, int64_max. lia. Qed.

Lemma s_maxbytes_emit e w : s_maxbytes (emit e w) = s_maxbytes w.
Proof. done. Qed.

Lemma s_maxbytes_set_file d fl w : s_maxbytes (set_file d fl w) = s_maxbytes w.
Proof. done. Qed.

(** Bring the limit of every world in sight to that of the world it was
    built from. *)
Ltac limits :=
  unfold s_maxbytes in *;
  cbn [fs_limit files ticks trace emit set_file drop_file
       world_before_delegation] in *.

Lemma File_eta (fl : File) : {| contents := contents fl; pos := pos fl |} = fl.
Proof. by destruct fl. Qed.

Lemma os_File_Seek_live d fl off wh w :
  files w !! d = Some fl →
  (wh = 0 ∨ wh = 1 ∨ wh = 2) →
  let r := (if wh =? 0 then 0 else if wh =? 1 then pos fl else file_size fl)
             + off in
  0 <= r <= s_maxbytes w →
  os_File_Seek (Some d) off wh w =
    ((r, None),
     set_file d {| contents := contents fl; pos := r |}
       (emit (FileCall (Some d) (CSeek off wh)) w)).
Proof.
  intros Hl Hwh r Hr. unfold os_File_Seek, checkValid.
  rewrite files_emit, Hl, s_maxbytes_emit. subst r.
  destruct Hwh as [-> | [-> | ->]]; cbn -[Z.add Z.ltb s_maxbytes] in *;
    (rewrite orb_false_intro; [done | apply Z.ltb_ge; lia ..]).
Qed.

Lemma Stat_live tf w d fl :
  f tf = Some d → files w !! d = Some fl → file_size fl <= s_maxbytes w →
  Stat tf w =
    (({| Size := file_size fl; DirtyThreshold := dirtyThreshold tf;
         Mtime := mtime tf |}, None), tf,
     set_file d {| contents := contents fl; pos := file_size fl |}
       (emit (FileCall (Some d) (CSeek 0 2)) w)).
Proof.
  intros Hf Hl Hsz. unfold Stat. rewrite Hf.
  rewrite (os_File_Seek_live d fl 0 2 w Hl);
    [| lia
     | change (0 <= file_size fl + 0 <= s_maxbytes w);
       unfold file_size in *; lia].
  simpl. by rewrite Z.add_0_r.
Qed.

Lemma set_file_id d fl w : files w !! d = Some fl → set_file d fl w = w.
Proof.
  intros Hl. destruct w. unfold set_file. simpl in *. f_equal.
  by apply insert_id.
Qed.

(** ** Writing to an open file *)

(** [WriteAt] on an open file puts some first part of the buffer into the
    file, in one piece and within the limit of the file system, and changes
    nothing else; when it reports no error it is the whole buffer, and its
    length is the count returned; with an error the count is 0. *)
Lemma os_File_WriteAt_open d fl b off env w :
  files w !! d = Some fl →
  ∃ k n err, (k ≤ length b)%nat ∧
    os_File_WriteAt (Some d) b off env w =
      ((n, err),
       set_file d
         {| contents := write_bytes (contents fl) (Z.to_nat off) (take k b);
            pos := pos fl |}
         (emit (FileCall (Some d) (CWriteAt b off)) w)) ∧
    ((0 < k)%nat → 0 <= off ∧ off + Z.of_nat k <= s_maxbytes w) ∧
    (err = None → 0 <= off ∧ k = length b ∧ n = Z.of_nat (length b)) ∧
    (err ≠ None → n = 0).
Proof.
  intros Hl. unfold os_File_WriteAt, checkValid. rewrite files_emit, Hl.
  destruct (Z.ltb_spec off 0).
  { exists 0%nat, 0, (Some ErrNegativeOffset). simpl.
    rewrite File_eta, set_file_id by done. repeat split; (done || lia). }
  case_bool_decide as Hb.
  { subst b. exists 0%nat, 0, None. simpl.
    rewrite File_eta, set_file_id by done. repeat split; (done || lia). }
  rewrite s_maxbytes_emit.
  pose proof (FD_Pwrite_spec (length b) (s_maxbytes w) (contents fl) b off
                env 0 ltac:(lia) ltac:(lia)) as Hspec.
  destruct (FD_Pwrite _ _ _ _ _ _ _) as [[data nn] err].
  destruct Hspec as (Hle & Herr & -> & Hlim).
  rewrite Nat.add_0_r, Nat.sub_0_r, drop_0.
  destruct err as [e|].
  - exists nn, 0, (Some e).
    repeat split; try done; try lia; try (apply Hlim; lia).
  - exists nn, (Z.of_nat nn), None. rewrite Herr in * by done.
    repeat split; try done; try lia; try (apply Hlim; lia).
Qed.

(** [Write] does the same at the seek position, which advances by the
    count, and the count is that of the bytes written also with an error. *)
Lemma os_File_Write_open d fl b env w :
  files w !! d = Some fl → 0 <= pos fl →
  ∃ k err, (k ≤ length b)%nat ∧
    os_File_Write (Some d) b env w =
      ((Z.of_nat k, err),
       set_file d
         {| contents :=
              write_bytes (contents fl) (Z.to_nat (pos fl)) (take k b);
            pos := pos fl + Z.of_nat k |}
         (emit (FileCall (Some d) (CWrite b)) w)) ∧
    ((0 < k)%nat → pos fl + Z.of_nat k <= s_maxbytes w) ∧
    (err = None → k = length b).
Proof.
  intros Hl Hpos. unfold os_File_Write, checkValid. rewrite files_emit, Hl.
  case_bool_decide as Hb.
  { subst b. exists 0%nat, None. simpl.
    rewrite Z.add_0_r, File_eta, set_file_id by done.
    repeat split; (done || lia). }
  rewrite s_maxbytes_emit.
  pose proof (FD_Pwrite_spec (length b) (s_maxbytes w) (contents fl) b
                (pos fl) env 0 Hpos ltac:(lia)) as Hspec.
  destruct (FD_Pwrite _ _ _ _ _ _ _) as [[data nn] err].
  destruct Hspec as (Hle & Herr & -> & Hlim).
  rewrite Nat.add_0_r, Nat.sub_0_r, drop_0.
  exists nn, err. repeat split; try done; try lia; try (apply Hlim; lia).
Qed.

(** [Truncate] on an open file either fails and changes nothing, or
    resizes the file to a size within the limit of the file system. *)
Lemma os_File_Truncate_open d fl n env w :
  files w !! d = Some fl →
  ∃ fl' err,
    os_File_Truncate (Some d) n env w =
      (err, set_file d fl' (emit (FileCall (Some d) (CTruncate n)) w)) ∧
    (err ≠ None → fl' = fl) ∧
    (err = None →
     0 <= n <= s_maxbytes w ∧
     fl' = {| contents := resize_bytes (contents fl) (Z.to_nat n);
              pos := pos fl |}).
Proof.
  intros Hl. unfold os_File_Truncate, checkValid.
  rewrite files_emit, Hl, s_maxbytes_emit.
  destruct (Z.ltb_spec n 0);
    [|destruct (Z.ltb_spec (s_maxbytes w) n); [|destruct env as [e|]]].
  1-3: eexists fl, _; rewrite set_file_id by done; by repeat split.
  eexists _, None. repeat split; (done || lia).
Qed.

(** ** What NewTempFile returns *)

Lemma NewTempFile_success content dir clk env w tf w1 :
  NewTempFile content dir clk env w = ((Some tf, None), w1) →
  tf = {| clock := clk; destroyed := false;
          f := Some (fresh (dom (files w)));
          dirtyThreshold := Z.of_nat (length (payload content));
          mtime := None |} ∧
  files w1 = <[fresh (dom (files w)) :=
                 {| contents := payload content;
                    pos := Z.of_nat (length (payload content)) |}]> (files w) ∧
  ticks w1 = ticks w ∧ fs_limit w1 = fs_limit w ∧
  alloc_fault env = None ∧ failure content = None ∧
  Z.of_nat (length (payload content)) <= s_maxbytes w.
Proof.
  unfold NewTempFile, fsutil_AnonymousFile, io_Copy.
  destruct (alloc_fault env); [done|]. lazy beta iota zeta.
  rewrite files_emit.
  set (d := fresh (dom (files w))).
  set (wa := set_file d {| contents := []; pos := 0 |}
               (emit (AnonymousFileCall dir) w)).
  destruct (os_File_Write_open d {| contents := []; pos := 0 |}
              (payload content) (copy_fault env) wa)
    as (k & err & Hk & -> & Hlim & Herr);
    [apply files_set_file | simpl; lia |].
  destruct err as [e|]; [done|]. destruct (failure content); [done|].
  intros [= <- <-]. rewrite Herr in * by done. rewrite firstn_all.
  assert (write_bytes [] (Z.to_nat 0) (payload content) = payload content)
    as ->.
  { unfold write_bytes. destruct (payload content); [done|].
    simpl. by rewrite app_nil_r. }
  simpl. rewrite insert_insert_eq.
  repeat split; try done.
  destruct (payload content) as [|x l] eqn:E.
  - pose proof (s_maxbytes_bounds w). simpl. lia.
  - change (s_maxbytes wa) with (s_maxbytes w) in Hlim.
    simpl in Hlim. simpl length. lia.
Qed.

(** ** The invariant is established by NewTempFile and kept by every call *)

Lemma NewTempFile_Inv content dir clk env w tf w' :
  NewTempFile content dir clk env w = ((Some tf, None), w') → Inv tf w'.
Proof.
  intros Hnew.
  destruct (NewTempFile_success _ _ _ _ _ _ _ Hnew)
    as (-> & Hfiles & _ & Hlim & _ & _ & Hmax).
  split; [done|]. eexists _, _. split; [done|].
  rewrite Hfiles, lookup_insert_eq. split; [done|].
  unfold s_maxbytes in *. rewrite Hlim. unfold file_size. simpl. lia.
Qed.

(** ** WriteAt and Truncate: metadata, then the file *)

Lemma WriteAt_delegates p offset env tf w :
  WriteAt p offset env tf w =
    (let '(r, w') := os_File_WriteAt (f tf) p offset env
                       (world_before_delegation tf offset w) in
     (r, metadata_updated tf offset w, w')).
Proof.
  unfold WriteAt, Clock_Now, emit, world_before_delegation, metadata_updated.
  simpl. rewrite minInt64_spec, <- !app_assoc. reflexivity.
Qed.

Lemma Truncate_delegates n env tf w :
  Truncate n env tf w =
    (let '(r, w') := os_File_Truncate (f tf) n env
                       (world_before_delegation tf n w) in
     (r, metadata_updated tf n w, w')).
Proof.
  unfold Truncate, Clock_Now, emit, world_before_delegation, metadata_updated.
  simpl. rewrite minInt64_spec, <- !app_assoc. reflexivity.
Qed.

Section Preservation.

Variables (tf : tempFile) (w : World).
Hypothesis HI : Inv tf w.

Lemma Seek_Inv off wh r tf' w' :
  Seek off wh tf w = (r, tf', w') → Inv tf' w'.
Proof using HI.
  destruct HI as (Hd & d & fl & Hf & Hl & Hsz & Hpos & Hm).
  unfold Seek, os_File_Seek, checkValid. rewrite Hf. simpl. rewrite Hl.
  repeat case_match; intros; simplify_eq/=; (split; [done|]); exists d.
  all: try (exists fl; done).
  all: eexists; limits; rewrite lookup_insert_eq;
    repeat split; try done; simpl; unfold file_size in *; simpl; try lia.
Qed.

Lemma Read_Inv n r tf' w' :
  Read n tf w = (r, tf', w') → Inv tf' w'.
Proof using HI.
  destruct HI as (Hd & d & fl & Hf & Hl & Hsz & Hpos & Hm).
  unfold Read, os_File_Read, checkValid. rewrite Hf. simpl. rewrite Hl.
  rewrite sys_pread_bytes by lia.
  repeat case_match; intros; simplify_eq/=; (split; [done|]); exists d.
  all: try (exists fl; done).
  eexists; limits; rewrite lookup_insert_eq.
  match goal with
  | H : take _ _ = _ |- _ =>
      apply (f_equal length) in H;
      rewrite length_take, length_drop in H; cbn [length] in H
  end.
  repeat split; try done; unfold file_size in *; cbn [contents pos]; lia.
Qed.

Lemma ReadAt_Inv n off r tf' w' :
  ReadAt n off tf w = (r, tf', w') → Inv tf' w'.
Proof using HI.
  destruct HI as (Hd & d & fl & Hf & Hl & Hsz & Hpos & Hm).
  unfold ReadAt, os_File_ReadAt, checkValid. rewrite Hf. simpl. rewrite Hl.
  repeat case_match; intros; simplify_eq/=; (split; [done|]); exists d.
  all: exists fl; done.
Qed.

Lemma Stat_Inv r tf' w' :
  Stat tf w = (r, tf', w') → Inv tf' w'.
Proof using HI.
  destruct HI as (Hd & d & fl & Hf & Hl & Hsz & Hpos & Hm).
  rewrite (Stat_live tf w d fl) by (done || apply Hsz).
  intros [= <- <- <-]. split; [done|]. exists d. eexists.
  rewrite files_set_file.
  repeat split; try done; limits; unfold file_size in *; cbn [contents pos];
    lia.
Qed.

Lemma SetMtime_Inv t tf' w' :
  SetMtime t tf w = (tf', w') → Inv tf' w'.
Proof using HI.
  destruct HI as (Hd & d & fl & Hf & Hl & Hsz & Hpos & Hm).
  intros [= <- <-]. split; [done|]. exists d, fl. done.
Qed.

Lemma WriteAt_Inv p off env r tf' w' :
  WriteAt p off env tf w = (r, tf', w') → Inv tf' w'.
Proof using HI.
  destruct HI as (Hd & d & fl & Hf & Hl & Hsz & Hpos & Hm).
  rewrite WriteAt_delegates, Hf.
  destruct (os_File_WriteAt_open d fl p off env
              (world_before_delegation tf off w) Hl)
    as (k & n & err & Hk & -> & Hlim & _).
  intros [= <- <- <-]. split; [done|]. exists d. eexists.
  split; [done|]. rewrite files_set_file. split; [done|].
  limits. unfold file_size in *.
  cbn [contents pos dirtyThreshold mtime metadata_updated set_mtime
       set_dirtyThreshold].
  assert (Hlen := length_write_bytes_ge (contents fl) (Z.to_nat off)
                    (take k p)).
  split; [|split; [done|done]].
  destruct (decide (take k p = [])) as [->|Hne];
    [cbn [write_bytes]; lia|].
  assert (0 < k)%nat as Hk0 by (destruct k; [done|lia]).
  rewrite length_write_bytes, length_take by done. lia.
Qed.

Lemma Truncate_Inv n env r tf' w' :
  Truncate n env tf w = (r, tf', w') → Inv tf' w'.
Proof using HI.
  destruct HI as (Hd & d & fl & Hf & Hl & Hsz & Hpos & Hm).
  rewrite Truncate_delegates, Hf.
  destruct (os_File_Truncate_open d fl n env
              (world_before_delegation tf n w) Hl)
    as (fl' & err & -> & Hfail & Hok).
  intros [= <- <- <-]. split; [done|]. exists d, fl'.
  split; [done|]. rewrite files_set_file. split; [done|].
  limits. unfold file_size in *.
  cbn [dirtyThreshold mtime metadata_updated set_mtime set_dirtyThreshold].
  destruct err as [e|].
  - rewrite Hfail by done. repeat split; (done || lia).
  - destruct Hok as [Hn ->]; [done|]. cbn [contents pos].
    rewrite length_resize_bytes. repeat split; (done || lia).
Qed.

(** On a live buffer [CheckInvariants] returns: none of its panics fires. *)
Lemma CheckInvariants_Inv r tf' w' :
  CheckInvariants tf w = (r, tf', w') → r = None ∧ Inv tf' w'.
Proof using HI.
  destruct HI as (Hd & d & fl & Hf & Hl & Hsz & Hpos & Hm).
  unfold CheckInvariants. rewrite Hd. unfold Seek at 1. rewrite Hf.
  rewrite (os_File_Seek_live d fl 0 1 w Hl);
    [| lia | change (0 <= pos fl + 0 <= s_maxbytes w); lia]. simpl.
  rewrite Z.add_0_r.
  erewrite Stat_live; [|done|apply files_set_file|apply Hsz].
  change (file_size {| contents := contents fl; pos := pos fl |})
    with (file_size fl).
  cbn [contents DirtyThreshold Size].
  destruct (Z.leb_spec (dirtyThreshold tf) (file_size fl)); [|lia]. simpl.
  assert (bool_decide (mtime tf = None)
          && negb (dirtyThreshold tf =? file_size fl) = false) as ->.
  { case_bool_decide; [|done]. simpl. rewrite Hm by done.
    by rewrite Z.eqb_refl. }
  unfold Seek. rewrite Hf.
  erewrite os_File_Seek_live;
    [| apply files_set_file | by left
     | change (0 <= 0 + pos fl <= s_maxbytes w); lia].
  simpl. intros [= <- <- <-]. split; [done|]. split; [done|].
  exists d. eexists. rewrite files_set_file.
  repeat split; try done; limits; unfold file_size in *; cbn [contents pos];
    lia.
Qed.

Lemma step_Inv o r tf' w' :
  is_destroy o = false → step o tf w = (r, tf', w') →
  r = None ∧ Inv tf' w'.
Proof using HI.
  intros Ho. destruct o; try discriminate Ho; simpl.
  - destruct (Read n tf w) as [[? ?] ?] eqn:E. intros [= <- <- <-].
    eauto using Read_Inv.
  - destruct (Seek offset whence tf w) as [[? ?] ?] eqn:E.
    intros [= <- <- <-]. eauto using Seek_Inv.
  - destruct (ReadAt n offset tf w) as [[? ?] ?] eqn:E.
    intros [= <- <- <-]. eauto using ReadAt_Inv.
  - destruct (WriteAt p offset env tf w) as [[? ?] ?] eqn:E.
    intros [= <- <- <-]. eauto using WriteAt_Inv.
  - destruct (Truncate n env tf w) as [[? ?] ?] eqn:E.
    intros [= <- <- <-]. eauto using Truncate_Inv.
  - destruct (Stat tf w) as [[? ?] ?] eqn:E. intros [= <- <- <-].
    eauto using Stat_Inv.
  - destruct (SetMtime t tf w) as [? ?] eqn:E. intros [= <- <- <-].
    eauto using SetMtime_Inv.
  - apply CheckInvariants_Inv.
Qed.

End Preservation.

Lemma run_Inv ops tf w r tf' w' :
  no_destroy ops = true → Inv tf w → run ops tf w = (r, tf', w') →
  r = None ∧ Inv tf' w'.
Proof.
  revert tf w. induction ops as [|o ops IH]; intros tf w Hops HI; simpl.
  - intros [= <- <- <-]. done.
  - simpl in Hops. apply andb_prop in Hops as [Ho Hops].
    apply negb_true_iff in Ho.
    destruct (step o tf w) as [[p tf1] w1] eqn:E.
    destruct (step_Inv _ _ HI _ _ _ _ Ho E) as [-> HI1]. by apply IH.
Qed.

(** ** What each call does to the struct *)

Lemma Read_tf n tf w : (Read n tf w).1.2 = tf.
Proof. unfold Read. by destruct (os_File_Read _ _ _). Qed.

Lemma Seek_tf off wh tf w : (Seek off wh tf w).1.2 = tf.
Proof. unfold Seek. by destruct (os_File_Seek _ _ _ _). Qed.

Lemma ReadAt_tf n off tf w : (ReadAt n off tf w).1.2 = tf.
Proof. unfold ReadAt. by destruct (os_File_ReadAt _ _ _ _). Qed.

Lemma Stat_tf tf w : (Stat tf w).1.2 = tf.
Proof.
  unfold Stat. destruct (os_File_Seek _ _ _ _) as [[? [?|]] ?]; done.
Qed.

Lemma CheckInvariants_tf tf w : (CheckInvariants tf w).1.2 = tf.
Proof.
  unfold CheckInvariants. destruct (destroyed tf); [done|].
  pose proof (Seek_tf 0 1 tf w) as H1.
  destruct (Seek 0 1 tf w) as [[[p0 [e|]] tf1] w1]; simpl in H1; subst tf1;
    [done|].
  pose proof (Stat_tf tf w1) as H2.
  destruct (Stat tf w1) as [[[sr oe] tf2] w2]; simpl in H2; subst tf2.
  destruct oe as [e|]; [| destruct (negb _); [| destruct (_ && _)]];
    cbn beta iota.
  all: pose proof (Seek_tf p0 0 tf w2) as H3.
  all: by destruct (Seek p0 0 tf w2) as [[[? [?|]] tf3] w3];
    simpl in H3; subst tf3.
Qed.

Lemma WriteAt_tf p off env tf w :
  (WriteAt p off env tf w).1.2 =
  set_mtime (readings (clock tf) (ticks w))
    (set_dirtyThreshold (Z.min (dirtyThreshold tf) off) tf).
Proof.
  unfold WriteAt, Clock_Now. rewrite minInt64_spec.
  by destruct (os_File_WriteAt _ _ _ _ _).
Qed.

Lemma Truncate_tf n env tf w :
  (Truncate n env tf w).1.2 =
  set_mtime (readings (clock tf) (ticks w))
    (set_dirtyThreshold (Z.min (dirtyThreshold tf) n) tf).
Proof.
  unfold Truncate, Clock_Now. rewrite minInt64_spec.
  by destruct (os_File_Truncate _ _ _ _).
Qed.

Lemma step_dirtyThreshold o tf w :
  dirtyThreshold (step o tf w).1.2 = threshold_after o (dirtyThreshold tf).
Proof.
  destruct o; simpl.
  - pose proof (Read_tf n tf w). destruct (Read n tf w) as [[? ?] ?].
    by simplify_eq/=.
  - pose proof (Seek_tf offset whence tf w).
    destruct (Seek offset whence tf w) as [[? ?] ?]. by simplify_eq/=.
  - pose proof (ReadAt_tf n offset tf w).
    destruct (ReadAt n offset tf w) as [[? ?] ?]. by simplify_eq/=.
  - pose proof (WriteAt_tf p offset env tf w).
    destruct (WriteAt p offset env tf w) as [[? ?] ?]. by simplify_eq/=.
  - pose proof (Truncate_tf n env tf w).
    destruct (Truncate n env tf w) as [[? ?] ?]. by simplify_eq/=.
  - pose proof (Stat_tf tf w). destruct (Stat tf w) as [[? ?] ?].
    by simplify_eq/=.
  - done.
  - by rewrite CheckInvariants_tf.
  - unfold Destroy. by destruct (os_File_Close _ _).
Qed.

Lemma threshold_after_le o dt : threshold_after o dt <= dt.
Proof. destruct o; simpl; lia. Qed.

Lemma threshold_after_nonneg o dt :
  nonneg_arg o = true → 0 <= dt → 0 <= threshold_after o dt.
Proof. destruct o; simpl; lia. Qed.

(** A call that is neither [WriteAt], [Truncate] nor [SetMtime] leaves
    [mtime] alone. *)
Lemma step_mtime o tf w :
  sets_mtime o = false → mtime (step o tf w).1.2 = mtime tf.
Proof.
  destruct o; try discriminate; intros _; simpl.
  - pose proof (Read_tf n tf w). destruct (Read n tf w) as [[? ?] ?].
    by simplify_eq/=.
  - pose proof (Seek_tf offset whence tf w).
    destruct (Seek offset whence tf w) as [[? ?] ?]. by simplify_eq/=.
  - pose proof (ReadAt_tf n offset tf w).
    destruct (ReadAt n offset tf w) as [[? ?] ?]. by simplify_eq/=.
  - pose proof (Stat_tf tf w). destruct (Stat tf w) as [[? ?] ?].
    by simplify_eq/=.
  - by rewrite CheckInvariants_tf.
  - unfold Destroy. by destruct (os_File_Close _ _).
Qed.

(** ** Calls that leave the bytes of every file alone *)

Lemma os_File_Read_contents h n w d :
  contents <$> files (os_File_Read h n w).2 !! d = contents <$> files w !! d.
Proof.
  unfold os_File_Read, checkValid. destruct h as [d'|]; [|done]. simpl.
  destruct (files w !! d') as [fl|] eqn:E; [|done].
  repeat case_match; try done; simpl.
  all: destruct (decide (d' = d)) as [->|Hne];
    [by rewrite lookup_insert_eq, E | by rewrite lookup_insert_ne].
Qed.

Lemma os_File_Seek_contents h off wh w d :
  contents <$> files (os_File_Seek h off wh w).2 !! d
  = contents <$> files w !! d.
Proof.
  unfold os_File_Seek, checkValid. destruct h as [d'|]; [|done]. simpl.
  destruct (files w !! d') as [fl|] eqn:E; [|done].
  repeat case_match; try done; simpl.
  all: destruct (decide (d' = d)) as [->|Hne];
    [by rewrite lookup_insert_eq, E | by rewrite lookup_insert_ne].
Qed.

Lemma os_File_ReadAt_files h n off w :
  files (os_File_ReadAt h n off w).2 = files w.
Proof.
  unfold os_File_ReadAt, checkValid. repeat case_match; done.
Qed.

Lemma Stat_contents tf w d :
  contents <$> files (Stat tf w).2 !! d = contents <$> files w !! d.
Proof.
  unfold Stat. pose proof (os_File_Seek_contents (f tf) 0 2 w d) as H.
  destruct (os_File_Seek _ _ _ _) as [[? [?|]] ?]; done.
Qed.

Lemma Seek_contents off wh tf w d :
  contents <$> files (Seek off wh tf w).2 !! d = contents <$> files w !! d.
Proof.
  unfold Seek. pose proof (os_File_Seek_contents (f tf) off wh w d) as H.
  by destruct (os_File_Seek _ _ _ _).
Qed.

Lemma CheckInvariants_contents tf w d :
  contents <$> files (CheckInvariants tf w).2 !! d
  = contents <$> files w !! d.
Proof.
  unfold CheckInvariants. destruct (destroyed tf); [done|].
  pose proof (Seek_contents 0 1 tf w d) as H1.
  pose proof (Seek_tf 0 1 tf w) as H1'.
  destruct (Seek 0 1 tf w) as [[[p0 [e|]] tf1] w1]; simpl in *; subst tf1;
    [done|].
  pose proof (Stat_contents tf w1 d) as H2.
  pose proof (Stat_tf tf w1) as H2'.
  destruct (Stat tf w1) as [[[sr oe] tf2] w2]; simpl in *; subst tf2.
  destruct oe as [e|]; [| destruct (negb _); [| destruct (_ && _)]];
    cbn beta iota.
  all: pose proof (Seek_contents p0 0 tf w2 d) as H3.
  all: destruct (Seek p0 0 tf w2) as [[[? [?|]] tf3] w3]; simpl in *;
    by rewrite H3, H2, H1.
Qed.

(** A call other than [WriteAt], [Truncate] and [Destroy] changes neither
    the bytes of any open file nor the handle of the buffer. *)
Lemma step_contents o tf w :
  is_mutation o = false → is_destroy o = false →
  contents_of (f (step o tf w).1.2) (step o tf w).2 = contents_of (f tf) w.
Proof.
  intros Hm Hd. destruct o; try discriminate; simpl.
  - unfold Read. pose proof (os_File_Read_contents (f tf) n w) as H.
    destruct (os_File_Read _ _ _). simpl in *. unfold contents_of.
    by destruct (f tf).
  - pose proof (Seek_contents offset whence tf w) as H.
    pose proof (Seek_tf offset whence tf w) as H'.
    destruct (Seek _ _ _ _) as [[? ?] ?]. simpl in *. subst.
    unfold contents_of. by destruct (f tf).
  - unfold ReadAt. pose proof (os_File_ReadAt_files (f tf) n offset w) as H.
    destruct (os_File_ReadAt _ _ _ _). simpl in *. unfold contents_of.
    by rewrite H.
  - pose proof (Stat_contents tf w) as H. pose proof (Stat_tf tf w) as H'.
    destruct (Stat _ _) as [[? ?] ?]. simpl in *. subst.
    unfold contents_of. by destruct (f tf).
  - done.
  - rewrite CheckInvariants_tf. unfold contents_of.
    destruct (f tf); [|done]. apply CheckInvariants_contents.
Qed.

(** ** Sequences *)

Lemma no_destroy_take k ops :
  no_destroy ops = true → no_destroy (take k ops) = true.
Proof.
  unfold no_destroy. revert k. induction ops as [|o ops IH]; intros [|k];
    simpl; try done.
  intros [Ho Hops]%andb_prop. rewrite Ho. simpl. by apply IH.
Qed.

Lemma run_dirtyThreshold_le ops tf w :
  dirtyThreshold (run ops tf w).1.2 <= dirtyThreshold tf.
Proof.
  revert tf w. induction ops as [|o ops IH]; intros tf w; simpl; [lia|].
  pose proof (step_dirtyThreshold o tf w) as Hs.
  pose proof (threshold_after_le o (dirtyThreshold tf)) as Hle.
  destruct (step o tf w) as [[[v|] tf1] w1]; simpl in *; [lia|].
  specialize (IH tf1 w1). lia.
Qed.

Lemma run_dirtyThreshold_nonneg ops tf w :
  forallb nonneg_arg ops = true → 0 <= dirtyThreshold tf →
  0 <= dirtyThreshold (run ops tf w).1.2.
Proof.
  revert tf w. induction ops as [|o ops IH]; intros tf w; simpl; [done|].
  intros [Ho Hops]%andb_prop Hdt.
  pose proof (step_dirtyThreshold o tf w) as Hs.
  pose proof (threshold_after_nonneg o _ Ho Hdt) as Hge.
  destruct (step o tf w) as [[[v|] tf1] w1]; simpl in *; [lia|].
  apply IH; [done|lia].
Qed.

Lemma NewTempFile_fields content dir clk env w tf w' :
  NewTempFile content dir clk env w = ((Some tf, None), w') →
  clock tf = clk ∧ destroyed tf = false ∧ mtime tf = None ∧
  f tf = Some (fresh (dom (files w))).
Proof.
  unfold NewTempFile, fsutil_AnonymousFile.
  destruct (alloc_fault env); [done|].
  destruct (io_Copy _ _ _ _) as [[size [e|]] w2]; [done|].
  by intros [= <- <-].
Qed.

(** ** Traces *)

Lemma os_File_WriteAt_trace h b off env w :
  trace (os_File_WriteAt h b off env w).2
  = trace w ++ [FileCall h (CWriteAt b off)].
Proof. unfold os_File_WriteAt. repeat case_match; done. Qed.

Lemma os_File_Truncate_trace h n env w :
  trace (os_File_Truncate h n env w).2
  = trace w ++ [FileCall h (CTruncate n)].
Proof. unfold os_File_Truncate. repeat case_match; done. Qed.

Lemma os_File_Write_trace h b env w :
  trace (os_File_Write h b env w).2 = trace w ++ [FileCall h (CWrite b)].
Proof. unfold os_File_Write. repeat case_match; done. Qed.

(** [NewTempFile] calls [AnonymousFile] and, when that succeeds, writes the
    payload; on no path does it close the file. *)
Lemma NewTempFile_trace content dir clk env w :
  trace (NewTempFile content dir clk env w).2
  = trace w ++ AnonymousFileCall dir ::
      match alloc_fault env with
      | Some _ => []
      | None => [FileCall (Some (fresh (dom (files w))))
                   (CWrite (payload content))]
      end.
Proof.
  unfold NewTempFile, fsutil_AnonymousFile, io_Copy.
  destruct (alloc_fault env); [done|].
  match goal with
  | |- context [os_File_Write ?h ?b ?e ?w] =>
      pose proof (os_File_Write_trace h b e w) as H;
      destruct (os_File_Write h b e w) as [[n [err|]] w2]
  end; simpl in *.
  - rewrite H. by rewrite <- app_assoc.
  - destruct (failure content); simpl; rewrite H; by rewrite <- app_assoc.
Qed.

(** When the copy fails, the file that [AnonymousFile] opened is still in
    the table of open files when [NewTempFile] returns. *)
Lemma NewTempFile_copy_error_open content dir clk env w e w' :
  NewTempFile content dir clk env w = ((None, Some (Errorf "copy" e)), w') →
  files w !! fresh (dom (files w)) = None ∧
  is_Some (files w' !! fresh (dom (files w))).
Proof.
  intros H. split.
  { apply not_elem_of_dom, is_fresh. }
  revert H. unfold NewTempFile, fsutil_AnonymousFile, io_Copy, os_File_Write,
    checkValid.
  destruct (alloc_fault env); [done|]. simpl. rewrite lookup_insert_eq.
  repeat case_match; intros; simplify_eq/=;
    rewrite ?lookup_insert_eq; eauto.
Qed.

(** ** After Destroy *)

Lemma step_destroyed o tf w :
  destroyed tf = true → f tf = None →
  destroyed (step o tf w).1.2 = true ∧ f (step o tf w).1.2 = None.
Proof.
  intros Hd Hf. destruct o; simpl.
  - pose proof (Read_tf n tf w). destruct (Read n tf w) as [[? ?] ?].
    by simplify_eq/=.
  - pose proof (Seek_tf offset whence tf w).
    destruct (Seek offset whence tf w) as [[? ?] ?]. by simplify_eq/=.
  - pose proof (ReadAt_tf n offset tf w).
    destruct (ReadAt n offset tf w) as [[? ?] ?]. by simplify_eq/=.
  - pose proof (WriteAt_tf p offset env tf w).
    destruct (WriteAt p offset env tf w) as [[? ?] ?]. by simplify_eq/=.
  - pose proof (Truncate_tf n env tf w).
    destruct (Truncate n env tf w) as [[? ?] ?]. by simplify_eq/=.
  - pose proof (Stat_tf tf w). destruct (Stat tf w) as [[? ?] ?].
    by simplify_eq/=.
  - done.
  - by rewrite CheckInvariants_tf.
  - unfold Destroy. by destruct (os_File_Close _ _).
Qed.

Lemma run_destroyed ops tf w :
  destroyed tf = true → f tf = None →
  destroyed (run ops tf w).1.2 = true ∧ f (run ops tf w).1.2 = None.
Proof.
  revert tf w. induction ops as [|o ops IH]; intros tf w Hd Hf; simpl;
    [done|].
  destruct (step_destroyed o tf w Hd Hf) as [Hd1 Hf1].
  destruct (step o tf w) as [[[v|] tf1] w1]; simpl in *; [done|].
  by apply IH.
Qed.

Lemma Destroy_fields tf w :
  destroyed (Destroy tf w).1 = true ∧ f (Destroy tf w).1 = None.
Proof. unfold Destroy. by destruct (os_File_Close _ _). Qed.

(** ** Reading at the end of the file, and calls that set mtime *)

(** At the end of the file [Read] returns no bytes: with [io.EOF] when
    bytes were asked for, unless the request would pass the largest offset,
    which the kernel refuses. *)
Lemma Read_at_end n tf w d fl :
  f tf = Some d → files w !! d = Some fl → pos fl = file_size fl →
  (Read n tf w).1.1 =
    ([], match n with
         | O => None
         | S _ =>
             if int64_max <? file_size fl + Z.min (Z.of_nat n) maxRW
             then Some EINVAL else Some EOF
         end).
Proof.
  intros Hf Hl Hp. unfold Read, os_File_Read, checkValid.
  rewrite Hf, files_emit, Hl, Hp. destruct n as [|n]; [done|].
  rewrite sys_pread_bytes by (unfold file_size; lia).
  destruct (int64_max <? _); [done|].
  unfold file_size. by rewrite Nat2Z.id, drop_all, take_nil.
Qed.

Lemma sets_mtime_Some o tf w :
  sets_mtime o = true → mtime (step o tf w).1.2 ≠ None.
Proof.
  destruct o; intros Hs; try discriminate Hs; simpl.
  - pose proof (WriteAt_tf p offset env tf w).
    destruct (WriteAt p offset env tf w) as [[? ?] ?]. by simplify_eq/=.
  - pose proof (Truncate_tf n env tf w).
    destruct (Truncate n env tf w) as [[? ?] ?]. by simplify_eq/=.
  - done.
Qed.

Lemma Inv_content_size tf w :
  Inv tf w →
  ∃ d fl, f tf = Some d ∧ files w !! d = Some fl ∧
    content_size tf w = Some (file_size fl) ∧
    dirtyThreshold tf <= file_size fl <= s_maxbytes w ∧
    (mtime tf = None → dirtyThreshold tf = file_size fl).
Proof.
  intros (Hd & d & fl & Hf & Hl & Hsz & Hpos & Hm). exists d, fl.
  unfold content_size, contents_of. rewrite Hf, Hl. done.
Qed.

(** ** The documented scenarios, and int64 ranges *)

Example scenario_create :
  stat_after []
  = Some ({| Size := 10; DirtyThreshold := 10; Mtime := None |}, None).
Proof. vm_compute. reflexivity. Qed.

Example scenario_write_inside :
  stat_after [OpWriteAt (replicate 5 Byte.x7a) 3 None]
  = Some ({| Size := 10; DirtyThreshold := 3; Mtime := Some 100 |}, None).
Proof. vm_compute. reflexivity. Qed.

Example scenario_write_above_threshold :
  stat_after [OpWriteAt (replicate 5 Byte.x7a) 3 None;
              OpWriteAt (replicate 2 Byte.x7a) 7 None]
  = Some ({| Size := 10; DirtyThreshold := 3; Mtime := Some 101 |}, None).
Proof. vm_compute. reflexivity. Qed.

Example scenario_truncate :
  stat_after [OpWriteAt (replicate 5 Byte.x7a) 3 None;
              OpWriteAt (replicate 2 Byte.x7a) 7 None;
              OpTruncate 2 None]
  = Some ({| Size := 2; DirtyThreshold := 2; Mtime := Some 102 |}, None).
Proof. vm_compute. reflexivity. Qed.

Example scenario_set_mtime :
  stat_after [OpSetMtime 7]
  = Some ({| Size := 10; DirtyThreshold := 10; Mtime := Some 7 |}, None)
  ∧ stat_after [OpSetMtime 7; OpWriteAt [Byte.x7a] 12 None]
    = Some ({| Size := 13; DirtyThreshold := 10; Mtime := Some 100 |}, None).
Proof. vm_compute. done. Qed.

Lemma threshold_after_int64 o dt :
  int64_args o = true → in_int64 dt → in_int64 (threshold_after o dt).
Proof. unfold in_int64. destruct o; simpl; lia. Qed.

(** With int64 arguments nothing leaves the int64 range: the threshold, the
    size and the seek position of a live buffer are all representable, so
    the unbounded integers of this model never differ from the Go values. *)
Lemma run_in_int64 content dir clk env w tf w1 ops :
  NewTempFile content dir clk env w = ((Some tf, None), w1) →
  no_destroy ops = true → forallb int64_args ops = true →
  let '(_, tf', w') := run ops tf w1 in
  in_int64 (dirtyThreshold tf') ∧
  ∃ size p, content_size tf' w' = Some size ∧ cursor tf' w' = Some p ∧
    0 <= size <= int64_max ∧ 0 <= p <= int64_max.
Proof.
  intros Hnew Hnd Hargs.
  assert (in_int64 (dirtyThreshold tf)) as H0.
  { destruct (NewTempFile_fields _ _ _ _ _ _ _ Hnew) as (_ & _ & Hm & _).
    apply NewTempFile_Inv in Hnew.
    destruct Hnew as (_ & d & fl & _ & _ & Hsz & _ & Heq).
    rewrite Heq by done. unfold in_int64, file_size, s_maxbytes, int64_min in *.
    lia. }
  apply NewTempFile_Inv in Hnew.
  assert (in_int64 (dirtyThreshold (run ops tf w1).1.2)) as Hdt.
  { clear Hnew Hnd. revert tf w1 H0 Hargs.
    induction ops as [|o ops IH]; intros tf w1 H0; simpl; [done|].
    intros [Ho Hops]%andb_prop.
    pose proof (step_dirtyThreshold o tf w1) as Hs.
    pose proof (threshold_after_int64 o _ Ho H0) as Hr.
    destruct (step o tf w1) as [[[v|] tf1] w2]; simpl in *;
      [by rewrite Hs|].
    apply IH; [by rewrite Hs | done]. }
  destruct (run ops tf w1) as [[p tf'] w'] eqn:E. simpl in Hdt.
  destruct (run_Inv _ _ _ _ _ _ Hnd Hnew E) as [_ HI].
  split; [done|].
  destruct HI as (_ & d & fl & Hf & Hl & Hsz & Hpos & _).
  exists (file_size fl), (pos fl).
  unfold content_size, contents_of, cursor. rewrite Hf, Hl.
  repeat split; try done; unfold file_size, s_maxbytes in *; lia.
Qed.

(** * The claims *)

(** C1. In every state (so in particular on a buffer that is not destroyed),
    [WriteAt p offset] and [Truncate n] first store
    [min dirtyThreshold offset] (respectively [min dirtyThreshold n]) into
    [dirtyThreshold], then read the clock and store the reading into [mtime]
    whatever [mtime] held before, and only then call the file: the file
    operation starts from a world whose table of files is still the one the
    call started with, and its event is the last of the four that the call
    appends to the trace. *)
Theorem metadata_before_delegation
    (p : list byte) (offset : Z) (wenv : option (nat * error))
    (n : Z) (tenv : option error) (tf : tempFile) (w : World) :
  (dirtyThreshold (metadata_updated tf offset w)
     = Z.min (dirtyThreshold tf) offset
   /\ mtime (metadata_updated tf offset w)
     = Some (readings (clock tf) (ticks w))
   /\ files (world_before_delegation tf offset w) = files w
   /\ WriteAt p offset wenv tf w =
        (let '(r, w') := os_File_WriteAt (f tf) p offset wenv
                           (world_before_delegation tf offset w) in
         (r, metadata_updated tf offset w, w'))
   /\ trace (WriteAt p offset wenv tf w).2 =
        trace w ++
          [StoreDirtyThreshold (Z.min (dirtyThreshold tf) offset);
           ClockNow (readings (clock tf) (ticks w));
           StoreMtime (readings (clock tf) (ticks w));
           FileCall (f tf) (CWriteAt p offset)])
  /\
  (dirtyThreshold (metadata_updated tf n w) = Z.min (dirtyThreshold tf) n
   /\ mtime (metadata_updated tf n w) = Some (readings (clock tf) (ticks w))
   /\ files (world_before_delegation tf n w) = files w
   /\ Truncate n tenv tf w =
        (let '(r, w') := os_File_Truncate (f tf) n tenv
                           (world_before_delegation tf n w) in
         (r, metadata_updated tf n w, w'))
   /\ trace (Truncate n tenv tf w).2 =
        trace w ++
          [StoreDirtyThreshold (Z.min (dirtyThreshold tf) n);
           ClockNow (readings (clock tf) (ticks w));
           StoreMtime (readings (clock tf) (ticks w));
           FileCall (f tf) (CTruncate n)]).
Proof.
  split; (split; [done|]); (split; [done|]); (split; [done|]).
  - split; [apply WriteAt_delegates|]. rewrite WriteAt_delegates.
    pose proof (os_File_WriteAt_trace (f tf) p offset wenv
                  (world_before_delegation tf offset w)) as H.
    destruct (os_File_WriteAt _ _ _ _ _). simpl in *. rewrite H.
    by rewrite <- app_assoc.
  - split; [apply Truncate_delegates|]. rewrite Truncate_delegates.
    pose proof (os_File_Truncate_trace (f tf) n tenv
                  (world_before_delegation tf n w)) as H.
    destruct (os_File_Truncate _ _ _ _). simpl in *. rewrite H.
    by rewrite <- app_assoc.
Qed.

(** C8. [dirtyThreshold] never increases: after any sequence of calls
    (in particular any sequence of [WriteAt] and [Truncate] calls) a further
    call leaves it less than or equal to what it was before that call, and
    the whole sequence leaves it less than or equal to its initial value. *)
Theorem dirtyThreshold_non_increasing
    (ops : list Op) (o : Op) (tf : tempFile) (w : World) :
  let s1 := run ops tf w in
  let s2 := step o s1.1.2 s1.2 in
  dirtyThreshold s2.1.2 <= dirtyThreshold s1.1.2 /\
  dirtyThreshold s1.1.2 <= dirtyThreshold tf.
Proof.
  intros s1 s2. split.
  - subst s2. rewrite step_dirtyThreshold. apply threshold_after_le.
  - apply run_dirtyThreshold_le.
Qed.

(** C9. [Read], [Seek], [ReadAt] and [Stat] leave [dirtyThreshold] and
    [mtime] as they were, in every state and for every argument. *)
Theorem reads_leave_metadata
    (tf : tempFile) (w : World) (n1 n2 : nat) (off1 off2 whence : Z) :
  let unchanged (tf' : tempFile) :=
    dirtyThreshold tf' = dirtyThreshold tf /\ mtime tf' = mtime tf in
  unchanged (Read n1 tf w).1.2 /\
  unchanged (Seek off1 whence tf w).1.2 /\
  unchanged (ReadAt n2 off2 tf w).1.2 /\
  unchanged (Stat tf w).1.2.
Proof.
  intros unchanged. unfold unchanged.
  by rewrite Read_tf, Seek_tf, ReadAt_tf, Stat_tf.
Qed.

(** C10. When the file operation behind [WriteAt] or [Truncate] returns an
    error, the call returns that error with [dirtyThreshold] already lowered
    by the min rule and [mtime] already set to the clock reading: nothing is
    rolled back. *)
Theorem metadata_kept_on_error
    (p : list byte) (offset : Z) (wenv : option (nat * error))
    (n : Z) (tenv : option error) (tf : tempFile) (w : World) :
  (forall k e w',
     os_File_WriteAt (f tf) p offset wenv
       (world_before_delegation tf offset w) = ((k, Some e), w') ->
     exists tf',
       WriteAt p offset wenv tf w = ((k, Some e), tf', w') /\
       dirtyThreshold tf' = Z.min (dirtyThreshold tf) offset /\
       mtime tf' = Some (readings (clock tf) (ticks w)))
  /\
  (forall e w',
     os_File_Truncate (f tf) n tenv (world_before_delegation tf n w)
       = (Some e, w') ->
     exists tf',
       Truncate n tenv tf w = (Some e, tf', w') /\
       dirtyThreshold tf' = Z.min (dirtyThreshold tf) n /\
       mtime tf' = Some (readings (clock tf) (ticks w))).
Proof.
  split.
  - intros k e w' H. exists (metadata_updated tf offset w).
    by rewrite WriteAt_delegates, H.
  - intros e w' H. exists (metadata_updated tf n w).
    by rewrite Truncate_delegates, H.
Qed.

Lemma metadata_kept_on_error_witness :
  (exists tf',
     WriteAt [Byte.x7a; Byte.x7a] 1 (Some (1%nat, Errno 28)) ex_tf ex_w
       = ((0, Some (Errno 28)), tf',
          (os_File_WriteAt (f ex_tf) [Byte.x7a; Byte.x7a] 1
             (Some (1%nat, Errno 28)) (world_before_delegation ex_tf 1 ex_w)).2)
     /\ dirtyThreshold tf' = 1 /\ mtime tf' = Some 100)
  /\
  (exists tf',
     Truncate (-4) None ex_tf ex_w
       = (Some EINVAL, tf',
          (os_File_Truncate (f ex_tf) (-4) None
             (world_before_delegation ex_tf (-4) ex_w)).2)
     /\ dirtyThreshold tf' = -4 /\ mtime tf' = Some 100).
Proof.
  split.
  - apply (proj1 (metadata_kept_on_error [Byte.x7a; Byte.x7a] 1
                    (Some (1%nat, Errno 28)) (-4) None ex_tf ex_w)).
    vm_compute. reflexivity.
  - apply (proj2 (metadata_kept_on_error [Byte.x7a; Byte.x7a] 1
                    (Some (1%nat, Errno 28)) (-4) None ex_tf ex_w)).
    vm_compute. reflexivity.
Defined.

(** C2. From a buffer that [NewTempFile] returned, after each call of any
    sequence of [Read], [Seek], [ReadAt], [WriteAt], [Truncate], [Stat],
    [SetMtime] and [CheckInvariants] calls (that is, after the first [k]
    calls, for every [k]) no call has panicked, the file is open, and
    [dirtyThreshold] is at most the current length of the file's content,
    which is also the [Size] that [Stat] then reports, without error,
    next to that [dirtyThreshold]. *)
Theorem threshold_bound
    (content : Reader) (dir : string) (clk : Clock) (env : CreateEnv)
    (w : World) (tf : tempFile) (w1 : World) (ops : list Op) (k : nat) :
  NewTempFile content dir clk env w = ((Some tf, None), w1) ->
  no_destroy ops = true ->
  let '(p, tf', w') := run (take k ops) tf w1 in
  p = None /\
  exists size,
    content_size tf' w' = Some size /\
    dirtyThreshold tf' <= size /\
    (Stat tf' w').1.1 =
      ({| Size := size; DirtyThreshold := dirtyThreshold tf';
          Mtime := mtime tf' |}, None).
Proof.
  intros Hnew Hops. apply NewTempFile_Inv in Hnew.
  apply (no_destroy_take k) in Hops.
  destruct (run (take k ops) tf w1) as [[p tf'] w'] eqn:E.
  destruct (run_Inv _ _ _ _ _ _ Hops Hnew E) as [-> HI]. split; [done|].
  destruct (Inv_content_size _ _ HI) as (d & fl & Hf & Hl & Hc & Hsz & _).
  exists (file_size fl). split; [done|]. split; [lia|].
  by rewrite (Stat_live tf' w' d fl) by (done || apply Hsz).
Qed.

Lemma threshold_bound_witness :
  let '(p, tf', w') :=
    run (take 5 [OpWriteAt [Byte.x7a; Byte.x7a] 2 None; OpSeek 0 0; OpRead 2;
                 OpTruncate 1 None; OpCheckInvariants; OpSetMtime 7])
      ex_tf ex_w in
  p = None /\
  exists size,
    content_size tf' w' = Some size /\
    dirtyThreshold tf' <= size /\
    (Stat tf' w').1.1 =
      ({| Size := size; DirtyThreshold := dirtyThreshold tf';
          Mtime := mtime tf' |}, None).
Proof.
  apply (threshold_bound ex_content "" ex_clock ex_env w0 ex_tf ex_w
           [OpWriteAt [Byte.x7a; Byte.x7a] 2 None; OpSeek 0 0; OpRead 2;
            OpTruncate 1 None; OpCheckInvariants; OpSetMtime 7] 5);
    vm_compute; reflexivity.
Defined.

(** C3. From a buffer that [NewTempFile] returned, after any sequence of
    calls without [Destroy]: if [mtime] is nil then [dirtyThreshold] equals
    the current size; and if one further call takes a state where
    [dirtyThreshold] equals the size to a state where it is strictly below
    the size, then that call is one of [WriteAt], [Truncate], [SetMtime], and
    [mtime] is set afterwards. *)
Theorem clean_implies_equal
    (content : Reader) (dir : string) (clk : Clock) (env : CreateEnv)
    (w : World) (tf : tempFile) (w1 : World) (ops : list Op) (o : Op) :
  NewTempFile content dir clk env w = ((Some tf, None), w1) ->
  no_destroy ops = true ->
  let '(_, tf', w') := run ops tf w1 in
  (mtime tf' = None -> content_size tf' w' = Some (dirtyThreshold tf')) /\
  (is_destroy o = false ->
   let '(_, tf2, w2) := step o tf' w' in
   content_size tf' w' = Some (dirtyThreshold tf') ->
   (exists size2,
      content_size tf2 w2 = Some size2 /\ dirtyThreshold tf2 < size2) ->
   sets_mtime o = true /\ mtime tf2 <> None).
Proof.
  intros Hnew Hops. apply NewTempFile_Inv in Hnew.
  destruct (run ops tf w1) as [[p tf'] w'] eqn:E.
  destruct (run_Inv _ _ _ _ _ _ Hops Hnew E) as [-> HI]. split.
  - intros Hm.
    destruct (Inv_content_size _ _ HI) as (d & fl & _ & _ & Hc & _ & Heq).
    rewrite Hc. f_equal. symmetry. by apply Heq.
  - intros Hd.
    pose proof (step_dirtyThreshold o tf' w') as Hdt.
    pose proof (sets_mtime_Some o tf' w') as Hset.
    pose proof (step_contents o tf' w') as Hcont.
    destruct (step o tf' w') as [[p2 tf2] w2]. simpl in *.
    intros Hclean (size2 & Hs2 & Hlt).
    destruct (sets_mtime o) eqn:Hsm; [by auto|]. exfalso.
    assert (is_mutation o = false) as Hmu by (by destruct o).
    unfold content_size in *. rewrite (Hcont Hmu Hd) in Hs2.
    rewrite Hs2 in Hclean. simplify_eq. destruct o; simpl in *; (done || lia).
Qed.

Lemma clean_implies_equal_witness :
  let '(_, tf', w') := run [OpSeek 1 0; OpRead 1; OpStat] ex_tf ex_w in
  (mtime tf' = None -> content_size tf' w' = Some (dirtyThreshold tf')) /\
  (is_destroy (OpWriteAt [Byte.x7a] 1 None) = false ->
   let '(_, tf2, w2) := step (OpWriteAt [Byte.x7a] 1 None) tf' w' in
   content_size tf' w' = Some (dirtyThreshold tf') ->
   (exists size2,
      content_size tf2 w2 = Some size2 /\ dirtyThreshold tf2 < size2) ->
   sets_mtime (OpWriteAt [Byte.x7a] 1 None) = true /\ mtime tf2 <> None).
Proof.
  apply (clean_implies_equal ex_content "" ex_clock ex_env w0 ex_tf ex_w
           [OpSeek 1 0; OpRead 1; OpStat] (OpWriteAt [Byte.x7a] 1 None));
    vm_compute; reflexivity.
Defined.

(** C4, as stated, fails: between two sequential reads, [Stat] moves the
    seek position to the end of the file and does not move it back.  On the
    three-byte example, after [Seek 0 0] and a first [Read] of one byte, a
    second [Read] returns the second byte, whereas after a [Stat] in between
    it returns [io.EOF]; the cursor is 1 before [Stat] and 3 after. *)
Lemma Stat_moves_cursor_counterexample :
  let '(_, tf0, wa) := Seek 0 0 ex_tf ex_w in
  let '(r1, tf1, wb) := Read 1 tf0 wa in
  let '(_, tfs, ws) := Stat tf1 wb in
  r1 = ([Byte.x61], None) /\
  (Read 1 tf1 wb).1.1 = ([Byte.x62], None) /\
  (Read 1 tfs ws).1.1 = ([], Some EOF) /\
  (Read 1 tfs ws).1.1 <> (Read 1 tf1 wb).1.1 /\
  cursor tf1 wb = Some 1 /\
  cursor tfs ws = Some 3 /\
  cursor tfs ws <> cursor tf1 wb.
Proof. vm_compute. repeat split; discriminate. Qed.

(** C4, amended. From a buffer that [NewTempFile] returned, after any
    sequence of calls without [Destroy], [Stat] succeeds and leaves the
    cursor at the end of the content, at the [Size] it reports (the interface
    says that [Stat] may invalidate the seek position): a [Read] that follows
    it returns no bytes, with [io.EOF] when bytes were asked for (with EINVAL
    instead when the size plus the request, of at most [maxRW] bytes, would
    pass 2^63-1).  [Stat] changes neither the struct nor the bytes of the
    file. *)
Theorem Stat_leaves_cursor_at_end
    (content : Reader) (dir : string) (clk : Clock) (env : CreateEnv)
    (w : World) (tf : tempFile) (w1 : World) (ops : list Op) (n : nat) :
  NewTempFile content dir clk env w = ((Some tf, None), w1) ->
  no_destroy ops = true ->
  let '(_, tf', w') := run ops tf w1 in
  let '((sr, err), tfs, ws) := Stat tf' w' in
  err = None /\
  tfs = tf' /\
  contents_of (f tfs) ws = contents_of (f tf') w' /\
  content_size tf' w' = Some (Size sr) /\
  cursor tfs ws = Some (Size sr) /\
  (Read n tfs ws).1.1 =
    ([], match n with
         | O => None
         | S _ =>
             if int64_max <? Size sr + Z.min (Z.of_nat n) maxRW
             then Some EINVAL else Some EOF
         end).
Proof.
  intros Hnew Hops. apply NewTempFile_Inv in Hnew.
  destruct (run ops tf w1) as [[p tf'] w'] eqn:E.
  destruct (run_Inv _ _ _ _ _ _ Hops Hnew E) as [-> HI].
  destruct (Inv_content_size _ _ HI) as (d & fl & Hf & Hl & Hc & Hsz & _).
  rewrite (Stat_live tf' w' d fl) by (done || apply Hsz).
  split; [done|]. split; [done|]. split.
  { unfold contents_of. rewrite Hf, files_set_file, Hl. done. }
  split; [done|]. split.
  { unfold cursor. rewrite Hf, files_set_file. done. }
  by rewrite (Read_at_end n tf' _ d
                {| contents := contents fl; pos := file_size fl |} Hf
                (files_set_file _ _ _)).
Qed.

Lemma Stat_leaves_cursor_at_end_witness :
  let '(_, tf', w') := run [OpSeek 0 0; OpRead 1] ex_tf ex_w in
  let '((sr, err), tfs, ws) := Stat tf' w' in
  err = None /\
  tfs = tf' /\
  contents_of (f tfs) ws = contents_of (f tf') w' /\
  content_size tf' w' = Some (Size sr) /\
  cursor tfs ws = Some (Size sr) /\
  (Read 1 tfs ws).1.1 = ([], Some EOF).
Proof.
  apply (Stat_leaves_cursor_at_end ex_content "" ex_clock ex_env w0 ex_tf ex_w
           [OpSeek 0 0; OpRead 1] 1); vm_compute; reflexivity.
Defined.

(** [CheckInvariants], which calls [Stat], is the call that puts the cursor
    back where it found it. *)
Lemma CheckInvariants_restores_cursor tf w :
  Inv tf w → cursor (CheckInvariants tf w).1.2 (CheckInvariants tf w).2
             = cursor tf w.
Proof.
  intros (Hd & d & fl & Hf & Hl & Hsz & Hpos & Hm).
  rewrite CheckInvariants_tf. unfold cursor. rewrite Hf, Hl.
  unfold CheckInvariants. rewrite Hd. unfold Seek at 1. rewrite Hf.
  rewrite (os_File_Seek_live d fl 0 1 w Hl);
    [| lia | change (0 <= pos fl + 0 <= s_maxbytes w); lia]. simpl.
  rewrite Z.add_0_r.
  erewrite Stat_live; [|done|apply files_set_file|apply Hsz].
  cbn [DirtyThreshold Size].
  destruct (negb _); [|destruct (_ && _)]; cbn beta iota;
    unfold Seek; rewrite Hf;
    (erewrite os_File_Seek_live;
      [| apply files_set_file | by left
       | change (0 <= 0 + pos fl <= s_maxbytes w); lia]);
    simpl; by rewrite lookup_insert_eq.
Qed.

(** C5 fails on the code: when the content reader fails after two bytes,
    [NewTempFile] returns no buffer and the error ["copy: ..."], but the
    anonymous file it opened is still open, holding the two bytes, and no
    [Close] was called on it. *)
Theorem NewTempFile_copy_failure_leaves_file_open :
  let '((tf, err), w') :=
    NewTempFile ex_failing_content "" ex_clock ex_env w0 in
  tf = None /\
  err = Some (Errorf "copy" (ErrReader 5)) /\
  files w' !! 0%nat
    = Some {| contents := [Byte.x61; Byte.x62]; pos := 2 |} /\
  trace w' = [AnonymousFileCall "";
              FileCall (Some 0%nat) (CWrite [Byte.x61; Byte.x62])].
Proof. vm_compute. done. Qed.

(** C6, as stated, fails: a [WriteAt] at offset -5 is rejected by the file,
    but only after [dirtyThreshold] has become [min 3 (-5)]. *)
Lemma negative_threshold_counterexample :
  NewTempFile ex_content "" ex_clock ex_env w0 = ((Some ex_tf, None), ex_w) /\
  (WriteAt [Byte.x7a] (-5) None ex_tf ex_w).1.1
    = (0, Some ErrNegativeOffset) /\
  dirtyThreshold (run [OpWriteAt [Byte.x7a] (-5) None] ex_tf ex_w).1.2 = -5 /\
  ~ 0 <= dirtyThreshold (run [OpWriteAt [Byte.x7a] (-5) None] ex_tf ex_w).1.2.
Proof. vm_compute. repeat split; discriminate || (intros H; by apply H). Qed.

(** C6, amended. From a buffer that [NewTempFile] returned, after any
    sequence of calls in which every [WriteAt] offset and every [Truncate]
    size is non-negative, [dirtyThreshold] is non-negative. *)
Theorem dirtyThreshold_nonneg
    (content : Reader) (dir : string) (clk : Clock) (env : CreateEnv)
    (w : World) (tf : tempFile) (w1 : World) (ops : list Op) :
  NewTempFile content dir clk env w = ((Some tf, None), w1) ->
  forallb nonneg_arg ops = true ->
  0 <= dirtyThreshold (run ops tf w1).1.2.
Proof.
  intros Hnew Hops. apply run_dirtyThreshold_nonneg; [done|].
  destruct (NewTempFile_fields _ _ _ _ _ _ _ Hnew) as (_ & _ & Hm & _).
  apply NewTempFile_Inv in Hnew.
  destruct (Inv_content_size _ _ Hnew) as (d & fl & _ & _ & _ & _ & Heq).
  rewrite Heq by done. unfold file_size. lia.
Qed.

Lemma dirtyThreshold_nonneg_witness :
  0 <= dirtyThreshold
         (run [OpWriteAt [Byte.x7a] 2 None; OpTruncate 0 None; OpDestroy]
            ex_tf ex_w).1.2.
Proof.
  apply (dirtyThreshold_nonneg ex_content "" ex_clock ex_env w0 ex_tf ex_w
           [OpWriteAt [Byte.x7a] 2 None; OpTruncate 0 None; OpDestroy]);
    vm_compute; reflexivity.
Defined.

(** C7, as stated, fails: [SetMtime] has no check of [destroyed].  On the
    example, after [Destroy] (file closed, handle nil), [SetMtime 42] returns
    normally, without a panic, and [mtime] has changed from nil to 42. *)
Lemma SetMtime_after_Destroy_counterexample :
  let '(tfd, wd) := Destroy ex_tf ex_w in
  destroyed tfd = true /\
  f tfd = None /\
  files wd !! 0%nat = None /\
  mtime tfd = None /\
  (step (OpSetMtime 42) tfd wd).1.1 = None /\
  mtime (step (OpSetMtime 42) tfd wd).1.2 = Some 42.
Proof. vm_compute. done. Qed.

(** C7, amended. Once [Destroy] has been called on a buffer, and whatever
    calls follow it: [CheckInvariants] panics with "Use of destroyed tempFile
    object"; [Read], [Seek], [ReadAt], [WriteAt], [Truncate] and [Stat]
    return the error of a nil file handle and leave every file alone;
    [WriteAt] and [Truncate] do so after updating the metadata as usual:
    [dirtyThreshold] is lowered by the min rule, the clock is read once and
    its reading stored in [mtime], and only then is the nil handle called;
    [SetMtime] does not check and sets [mtime]. *)
Theorem after_Destroy
    (tf : tempFile) (w : World) (ops : list Op)
    (n : nat) (off whence : Z) (p : list byte) (wenv : option (nat * error))
    (size : Z) (tenv : option error) (t : Time) :
  let '(tfd, wd) := Destroy tf w in
  let '(_, tf', w') := run ops tfd wd in
  destroyed tf' = true /\
  f tf' = None /\
  CheckInvariants tf' w' = (Some UseOfDestroyed, tf', w') /\
  ((Read n tf' w').1.1 = ([], Some ErrInvalid)
   /\ files (Read n tf' w').2 = files w') /\
  ((Seek off whence tf' w').1.1 = (0, Some ErrInvalid)
   /\ files (Seek off whence tf' w').2 = files w') /\
  ((ReadAt n off tf' w').1.1 = ([], Some ErrInvalid)
   /\ files (ReadAt n off tf' w').2 = files w') /\
  ((WriteAt p off wenv tf' w').1.1 = (0, Some ErrInvalid)
   /\ files (WriteAt p off wenv tf' w').2 = files w'
   /\ dirtyThreshold (WriteAt p off wenv tf' w').1.2
      = Z.min (dirtyThreshold tf') off
   /\ mtime (WriteAt p off wenv tf' w').1.2
      = Some (readings (clock tf') (ticks w'))
   /\ ticks (WriteAt p off wenv tf' w').2 = S (ticks w')
   /\ trace (WriteAt p off wenv tf' w').2 =
        trace w' ++
          [StoreDirtyThreshold (Z.min (dirtyThreshold tf') off);
           ClockNow (readings (clock tf') (ticks w'));
           StoreMtime (readings (clock tf') (ticks w'));
           FileCall None (CWriteAt p off)]) /\
  ((Truncate size tenv tf' w').1.1 = Some ErrInvalid
   /\ files (Truncate size tenv tf' w').2 = files w'
   /\ dirtyThreshold (Truncate size tenv tf' w').1.2
      = Z.min (dirtyThreshold tf') size
   /\ mtime (Truncate size tenv tf' w').1.2
      = Some (readings (clock tf') (ticks w'))
   /\ ticks (Truncate size tenv tf' w').2 = S (ticks w')
   /\ trace (Truncate size tenv tf' w').2 =
        trace w' ++
          [StoreDirtyThreshold (Z.min (dirtyThreshold tf') size);
           ClockNow (readings (clock tf') (ticks w'));
           StoreMtime (readings (clock tf') (ticks w'));
           FileCall None (CTruncate size)]) /\
  ((Stat tf' w').1.1.2 = Some (Errorf "Seek" ErrInvalid)
   /\ files (Stat tf' w').2 = files w') /\
  SetMtime t tf' w' = (set_mtime t tf', emit (StoreMtime t) w').
Proof.
  destruct (Destroy_fields tf w) as [Hd Hf].
  destruct (Destroy tf w) as [tfd wd]. simpl in Hd, Hf.
  destruct (run_destroyed ops tfd wd Hd Hf) as [Hd' Hf'].
  destruct (run ops tfd wd) as [[po tf'] w']. simpl in Hd', Hf'.
  split; [done|]. split; [done|]. split.
  { unfold CheckInvariants. by rewrite Hd'. }
  unfold Read, Seek, ReadAt, WriteAt, Truncate, Stat, SetMtime.
  simpl. rewrite Hf', !minInt64_spec. simpl. rewrite <- !app_assoc. done.
Qed.

(** * Further properties of the code *)

(** ** What a call may touch *)

Lemma only_touches_refl h w : only_touches h w w.
Proof. by split. Qed.

Lemma only_touches_trans h w1 w2 w3 :
  only_touches h w1 w2 → only_touches h w2 w3 → only_touches h w1 w3.
Proof.
  intros [Ht1 Hf1] [Ht2 Hf2]. split; [congruence|].
  intros d Hd. by rewrite Hf2, Hf1.
Qed.

Lemma os_File_Read_touches h n w : only_touches h w (os_File_Read h n w).2.
Proof.
  unfold os_File_Read, checkValid. destruct h as [d|]; [|by split].
  simpl. destruct (files w !! d); [|by split].
  repeat case_match; (split; [done|]); intros d' Hd'; simpl;
    rewrite ?lookup_insert_ne by congruence; done.
Qed.

Lemma os_File_Seek_touches h off wh w :
  only_touches h w (os_File_Seek h off wh w).2.
Proof.
  unfold os_File_Seek, checkValid. destruct h as [d|]; [|by split].
  simpl. destruct (files w !! d); [|by split].
  repeat case_match; (split; [done|]); intros d' Hd'; simpl;
    rewrite ?lookup_insert_ne by congruence; done.
Qed.

Lemma os_File_WriteAt_touches h b off env w :
  only_touches h w (os_File_WriteAt h b off env w).2.
Proof.
  destruct h as [d|]; [|by split].
  destruct (files w !! d) as [fl|] eqn:Hl.
  - destruct (os_File_WriteAt_open d fl b off env w Hl)
      as (k & n & err & _ & -> & _).
    split; [done|]. intros d' Hd'. simpl.
    by rewrite lookup_insert_ne by congruence.
  - unfold os_File_WriteAt, checkValid. rewrite files_emit, Hl. by split.
Qed.

Lemma os_File_Truncate_touches h n env w :
  only_touches h w (os_File_Truncate h n env w).2.
Proof.
  destruct h as [d|]; [|by split].
  destruct (files w !! d) as [fl|] eqn:Hl.
  - destruct (os_File_Truncate_open d fl n env w Hl) as (fl' & err & -> & _).
    split; [done|]. intros d' Hd'. simpl.
    by rewrite lookup_insert_ne by congruence.
  - unfold os_File_Truncate, checkValid. rewrite files_emit, Hl. by split.
Qed.

Lemma os_File_Close_touches h w : only_touches h w (os_File_Close h w).2.
Proof.
  unfold os_File_Close, checkValid. destruct h as [d|]; [|by split].
  simpl. destruct (files w !! d); [|by split].
  split; [done|]. intros d' Hd'. simpl.
  rewrite lookup_delete_ne by congruence. done.
Qed.

Lemma Read_touches n tf w : only_touches (f tf) w (Read n tf w).2.
Proof.
  unfold Read. pose proof (os_File_Read_touches (f tf) n w).
  by destruct (os_File_Read _ _ _).
Qed.

Lemma Seek_touches off wh tf w : only_touches (f tf) w (Seek off wh tf w).2.
Proof.
  unfold Seek. pose proof (os_File_Seek_touches (f tf) off wh w).
  by destruct (os_File_Seek _ _ _ _).
Qed.

Lemma ReadAt_touches n off tf w : only_touches (f tf) w (ReadAt n off tf w).2.
Proof.
  unfold ReadAt. pose proof (os_File_ReadAt_files (f tf) n off w) as H.
  assert (ticks (os_File_ReadAt (f tf) n off w).2 = ticks w) as Ht.
  { unfold os_File_ReadAt. repeat case_match; done. }
  destruct (os_File_ReadAt _ _ _ _). simpl in *. split; [done|].
  intros d _. by rewrite H.
Qed.

Lemma Stat_touches tf w : only_touches (f tf) w (Stat tf w).2.
Proof.
  unfold Stat. pose proof (os_File_Seek_touches (f tf) 0 2 w).
  by destruct (os_File_Seek _ _ _ _) as [[? [?|]] ?].
Qed.

(** [CheckInvariants] ends in the world it started in, or in one reached
    through its [Seek], [Stat], [Seek] calls: a relation that these keep is
    kept by [CheckInvariants]. *)
Lemma CheckInvariants_keeps (R : World → World → Prop) tf w :
  (∀ w1, R w1 w1) →
  (∀ w1 w2 w3, R w1 w2 → R w2 w3 → R w1 w3) →
  (∀ off wh w1, R w1 (Seek off wh tf w1).2) →
  (∀ w1, R w1 (Stat tf w1).2) →
  R w (CheckInvariants tf w).2.
Proof.
  intros Hrefl Htrans HSeek HStat. unfold CheckInvariants.
  destruct (destroyed tf); [apply Hrefl|].
  pose proof (HSeek 0 1 w) as H1. pose proof (Seek_tf 0 1 tf w) as H1'.
  destruct (Seek 0 1 tf w) as [[[p0 [e|]] tf1] w1]; simpl in *; subst tf1;
    [done|].
  pose proof (HStat w1) as H2. pose proof (Stat_tf tf w1) as H2'.
  destruct (Stat tf w1) as [[[sr oe] tf2] w2]; simpl in *; subst tf2.
  destruct oe as [e|]; [| destruct (negb _); [| destruct (_ && _)]];
    cbn beta iota.
  all: pose proof (HSeek p0 0 w2) as H3.
  all: destruct (Seek p0 0 tf w2) as [[[? [?|]] tf3] w3]; simpl in *;
    eauto.
Qed.

Lemma CheckInvariants_touches tf w :
  only_touches (f tf) w (CheckInvariants tf w).2.
Proof.
  apply CheckInvariants_keeps;
    eauto using only_touches_refl, only_touches_trans, Seek_touches,
      Stat_touches.
Qed.


Lemma step_ticks o tf w :
  ticks (step o tf w).2
  = (ticks w + if is_mutation o then 1 else 0)%nat.
Proof.
  destruct o; simpl.
  - pose proof (Read_touches n tf w) as [H _].
    destruct (Read n tf w) as [[? ?] ?]. simpl in *. lia.
  - pose proof (Seek_touches offset whence tf w) as [H _].
    destruct (Seek offset whence tf w) as [[? ?] ?]. simpl in *. lia.
  - pose proof (ReadAt_touches n offset tf w) as [H _].
    destruct (ReadAt n offset tf w) as [[? ?] ?]. simpl in *. lia.
  - rewrite WriteAt_delegates.
    pose proof (os_File_WriteAt_touches (f tf) p offset env
                  (world_before_delegation tf offset w)) as [H _].
    destruct (os_File_WriteAt _ _ _ _ _). simpl in *. lia.
  - rewrite Truncate_delegates.
    pose proof (os_File_Truncate_touches (f tf) n env
                  (world_before_delegation tf n w)) as [H _].
    destruct (os_File_Truncate _ _ _ _). simpl in *. lia.
  - pose proof (Stat_touches tf w) as [H _].
    destruct (Stat tf w) as [[? ?] ?]. simpl in *. lia.
  - lia.
  - pose proof (CheckInvariants_touches tf w) as [H _]. lia.
  - unfold Destroy. simpl.
    pose proof (os_File_Close_touches (f tf) (emit (StoreDestroyed true) w))
      as [H _].
    destruct (os_File_Close _ _). simpl in *. lia.
Qed.


Lemma run_ticks ops tf w :
  no_destroy ops = true → Inv tf w →
  ticks (run ops tf w).2 = (ticks w + length (mutation_args ops))%nat.
Proof.
  revert tf w. induction ops as [|o ops IH]; intros tf w Hops HI; simpl;
    [lia|].
  simpl in Hops. apply andb_prop in Hops as [Ho Hops].
  apply negb_true_iff in Ho.
  pose proof (step_ticks o tf w) as Ht.
  destruct (step o tf w) as [[p tf1] w1] eqn:E.
  destruct (step_Inv _ _ HI _ _ _ _ Ho E) as [-> HI1]. simpl in Ht.
  rewrite (IH _ _ Hops HI1), Ht. destruct o; simpl; lia.
Qed.

(** ** What NewTempFile returns *)

Lemma ReadAt_bytes n off tf w d fl :
  f tf = Some d → files w !! d = Some fl →
  0 <= off → off + Z.of_nat n <= int64_max →
  (ReadAt n off tf w).1.1 =
    (take n (drop (Z.to_nat off) (contents fl)),
     if (length (take n (drop (Z.to_nat off) (contents fl))) <? n)%nat
     then Some EOF else None).
Proof.
  intros Hf Hl Hoff Hmax. unfold ReadAt, os_File_ReadAt, checkValid.
  rewrite Hf, files_emit, Hl.
  destruct (Z.ltb_spec off 0); [lia|]. cbn [fst snd].
  rewrite pread_loop_no_overflow by lia. rewrite Nat2Z.id.
  f_equal.
  destruct (Nat.ltb_spec (length (take n (drop (Z.to_nat off) (contents fl))))
              n);
    destruct (Z.ltb_spec
                (Z.of_nat (length (take n (drop (Z.to_nat off)
                                             (contents fl)))))
                (Z.of_nat n)); (done || lia).
Qed.




(** X2. [NewTempFile] returns either a buffer and no error, or no buffer
    and an error.  When [AnonymousFile] fails the error is that failure
    prefixed "AnonymousFile" and the table of open files is as before; when
    it succeeds, a failure is always prefixed "copy".  The clock is never
    read. *)
Theorem NewTempFile_outcome
    (content : Reader) (dir : string) (clk : Clock) (env : CreateEnv)
    (w : World) :
  let '((tf, err), w1) := NewTempFile content dir clk env w in
  ticks w1 = ticks w /\
  match alloc_fault env with
  | Some e =>
      tf = None /\ err = Some (Errorf "AnonymousFile" e) /\
      files w1 = files w
  | None =>
      (exists t, tf = Some t /\ err = None) \/
      (tf = None /\ exists e, err = Some (Errorf "copy" e))
  end.
Proof.
  unfold NewTempFile, fsutil_AnonymousFile, io_Copy.
  destruct (alloc_fault env); [done|]. lazy beta iota zeta.
  rewrite files_emit.
  set (d := fresh (dom (files w))).
  set (wa := set_file d {| contents := []; pos := 0 |}
               (emit (AnonymousFileCall dir) w)).
  destruct (os_File_Write_open d {| contents := []; pos := 0 |}
              (payload content) (copy_fault env) wa)
    as (k & err & _ & -> & _); [apply files_set_file | simpl; lia |].
  destruct err as [e|]; [|destruct (failure content)];
    (split; [done|]); eauto.
Qed.

(** ** Threshold and mtime over a whole sequence *)

Lemma foldr_min_init d a l :
  foldr Z.min (Z.min d a) l = Z.min a (foldr Z.min d l).
Proof. induction l as [|x l IH]; simpl; lia. Qed.

Lemma run_threshold_min ops tf w :
  no_destroy ops = true → Inv tf w →
  dirtyThreshold (run ops tf w).1.2
  = foldr Z.min (dirtyThreshold tf) (mutation_args ops).
Proof.
  revert tf w. induction ops as [|o ops IH]; intros tf w Hops HI; simpl;
    [done|].
  simpl in Hops. apply andb_prop in Hops as [Ho Hops].
  apply negb_true_iff in Ho.
  pose proof (step_dirtyThreshold o tf w) as Hdt.
  destruct (step o tf w) as [[p tf1] w1] eqn:E.
  destruct (step_Inv _ _ HI _ _ _ _ Ho E) as [-> HI1]. simpl in Hdt.
  rewrite (IH _ _ Hops HI1), Hdt.
  destruct o; simpl; try done; apply foldr_min_init.
Qed.

Lemma step_mtime_None o tf w :
  mtime (step o tf w).1.2 = None ↔ mtime tf = None ∧ sets_mtime o = false.
Proof.
  destruct (sets_mtime o) eqn:Hs.
  - pose proof (sets_mtime_Some o tf w Hs). intuition congruence.
  - rewrite (step_mtime o tf w Hs). intuition congruence.
Qed.

Lemma run_mtime_None ops tf w :
  no_destroy ops = true → Inv tf w →
  mtime (run ops tf w).1.2 = None ↔ mtime tf = None ∧ no_setter ops = true.
Proof.
  revert tf w. induction ops as [|o ops IH]; intros tf w Hops HI; simpl;
    [tauto|].
  simpl in Hops. apply andb_prop in Hops as [Ho Hops].
  apply negb_true_iff in Ho.
  pose proof (step_mtime_None o tf w) as Hm.
  destruct (step o tf w) as [[p tf1] w1] eqn:E.
  destruct (step_Inv _ _ HI _ _ _ _ Ho E) as [-> HI1]. simpl in Hm.
  rewrite (IH _ _ Hops HI1), Hm. unfold no_setter. simpl.
  rewrite andb_true_iff, negb_true_iff. tauto.
Qed.

Lemma run_no_setter_mtime ops tf w :
  no_setter ops = true → mtime (run ops tf w).1.2 = mtime tf.
Proof.
  revert tf w. induction ops as [|o ops IH]; intros tf w; simpl; [done|].
  unfold no_setter. simpl. intros [Ho Hops]%andb_prop.
  apply negb_true_iff in Ho. pose proof (step_mtime o tf w Ho) as Hm.
  destruct (step o tf w) as [[[v|] tf1] w1]; simpl in *; [done|].
  by rewrite (IH _ _ Hops).
Qed.



(** X4. The clock is read once by each [WriteAt] and each [Truncate] and by
    nothing else: after [NewTempFile] and any sequence of calls without
    [Destroy], the number of readings taken has grown by the number of
    [WriteAt] and [Truncate] calls. *)
Theorem clock_read_once_per_mutation
    (content : Reader) (dir : string) (clk : Clock) (env : CreateEnv)
    (w : World) (tf : tempFile) (w1 : World) (ops : list Op) :
  NewTempFile content dir clk env w = ((Some tf, None), w1) ->
  no_destroy ops = true ->
  ticks (run ops tf w1).2 = (ticks w + length (mutation_args ops))%nat.
Proof.
  intros Hnew Hops.
  destruct (NewTempFile_success _ _ _ _ _ _ _ Hnew) as (_ & _ & Ht & _).
  apply NewTempFile_Inv in Hnew. by rewrite run_ticks, Ht.
Qed.

Lemma clock_read_once_per_mutation_witness :
  ticks (run [OpWriteAt [Byte.x7a] 0 None; OpStat; OpSetMtime 7;
              OpTruncate 1 None; OpCheckInvariants; OpRead 1]
           ex_tf ex_w).2 = 2%nat.
Proof.
  apply (clock_read_once_per_mutation ex_content "" ex_clock ex_env w0
           ex_tf ex_w
           [OpWriteAt [Byte.x7a] 0 None; OpStat; OpSetMtime 7;
            OpTruncate 1 None; OpCheckInvariants; OpRead 1]);
    vm_compute; reflexivity.
Defined.

(** X5. After [NewTempFile] and any sequence of calls without [Destroy],
    [dirtyThreshold] is the minimum of the number of bytes copied at creation
    and of all the offsets and sizes handed to [WriteAt] and [Truncate]; it
    depends neither on their order nor on whether the file accepted them. *)
Theorem dirtyThreshold_is_minimum
    (content : Reader) (dir : string) (clk : Clock) (env : CreateEnv)
    (w : World) (tf : tempFile) (w1 : World) (ops : list Op) :
  NewTempFile content dir clk env w = ((Some tf, None), w1) ->
  no_destroy ops = true ->
  dirtyThreshold (run ops tf w1).1.2
  = foldr Z.min (Z.of_nat (length (payload content))) (mutation_args ops).
Proof.
  intros Hnew Hops.
  destruct (NewTempFile_success _ _ _ _ _ _ _ Hnew) as (Htf & _).
  apply NewTempFile_Inv in Hnew. rewrite run_threshold_min by done.
  by rewrite Htf.
Qed.

Lemma dirtyThreshold_is_minimum_witness :
  dirtyThreshold
    (run [OpWriteAt [Byte.x7a] 2 None; OpTruncate (-1) None;
          OpWriteAt [Byte.x7a] 1 (Some (0%nat, Errno 28))] ex_tf ex_w).1.2
  = -1.
Proof.
  apply (dirtyThreshold_is_minimum ex_content "" ex_clock ex_env w0
           ex_tf ex_w
           [OpWriteAt [Byte.x7a] 2 None; OpTruncate (-1) None;
            OpWriteAt [Byte.x7a] 1 (Some (0%nat, Errno 28))]);
    vm_compute; reflexivity.
Defined.

(** X6. After [NewTempFile] and any sequence of calls without [Destroy],
    [mtime] is nil exactly when none of the calls was a [WriteAt], a
    [Truncate] or a [SetMtime]. *)
Theorem mtime_nil_iff_never_modified
    (content : Reader) (dir : string) (clk : Clock) (env : CreateEnv)
    (w : World) (tf : tempFile) (w1 : World) (ops : list Op) :
  NewTempFile content dir clk env w = ((Some tf, None), w1) ->
  no_destroy ops = true ->
  mtime (run ops tf w1).1.2 = None <-> no_setter ops = true.
Proof.
  intros Hnew Hops.
  destruct (NewTempFile_success _ _ _ _ _ _ _ Hnew) as (Htf & _).
  apply NewTempFile_Inv in Hnew. rewrite run_mtime_None by done.
  rewrite Htf. simpl. tauto.
Qed.

Lemma mtime_nil_iff_never_modified_witness :
  mtime (run [OpSeek 0 0; OpRead 2; OpStat; OpCheckInvariants]
           ex_tf ex_w).1.2 = None
  <-> no_setter [OpSeek 0 0; OpRead 2; OpStat; OpCheckInvariants] = true.
Proof.
  apply (mtime_nil_iff_never_modified ex_content "" ex_clock ex_env w0
           ex_tf ex_w); vm_compute; reflexivity.
Defined.

(** X7. [SetMtime t] changes nothing but [mtime]; the value sticks through
    any later calls that do not modify the file, so that [Stat] reports it,
    until the next [WriteAt] or [Truncate] replaces it with the clock's
    reading. *)
Theorem SetMtime_sticks
    (t : Time) (tf : tempFile) (w : World) (ops : list Op) (o : Op) :
  no_setter ops = true ->
  is_mutation o = true ->
  let '(tf1, w1) := SetMtime t tf w in
  let '(_, tf2, w2) := run ops tf1 w1 in
  (dirtyThreshold tf1 = dirtyThreshold tf /\ f tf1 = f tf /\
   destroyed tf1 = destroyed tf /\ files w1 = files w /\
   ticks w1 = ticks w) /\
  mtime tf2 = Some t /\
  Mtime (Stat tf2 w2).1.1.1 = Some t /\
  mtime (step o tf2 w2).1.2 = Some (readings (clock tf2) (ticks w2)).
Proof.
  intros Hops Ho. simpl.
  pose proof (run_no_setter_mtime ops (set_mtime t tf)
                (emit (StoreMtime t) w) Hops) as Hm.
  destruct (run ops _ _) as [[p tf2] w2]. simpl in Hm.
  split; [done|]. split; [done|]. split.
  { pose proof (Stat_tf tf2 w2) as Hs. unfold Stat in *.
    destruct (os_File_Seek _ _ _ _) as [[? [?|]] ?]; done. }
  destruct o; try discriminate Ho; simpl.
  - pose proof (WriteAt_tf p0 offset env tf2 w2) as H.
    destruct (WriteAt _ _ _ _ _) as [[? ?] ?]. simpl in *. by subst.
  - pose proof (Truncate_tf n env tf2 w2) as H.
    destruct (Truncate _ _ _ _) as [[? ?] ?]. simpl in *. by subst.
Qed.

Lemma SetMtime_sticks_witness :
  let '(tf1, w1) := SetMtime 7 ex_tf ex_w in
  let '(_, tf2, w2) :=
    run [OpSeek 0 0; OpRead 1; OpStat; OpCheckInvariants] tf1 w1 in
  (dirtyThreshold tf1 = dirtyThreshold ex_tf /\ f tf1 = f ex_tf /\
   destroyed tf1 = destroyed ex_tf /\ files w1 = files ex_w /\
   ticks w1 = ticks ex_w) /\
  mtime tf2 = Some 7 /\
  Mtime (Stat tf2 w2).1.1.1 = Some 7 /\
  mtime (step (OpTruncate 1 None) tf2 w2).1.2
    = Some (readings (clock tf2) (ticks w2)).
Proof.
  apply (SetMtime_sticks 7 ex_tf ex_w
           [OpSeek 0 0; OpRead 1; OpStat; OpCheckInvariants]
           (OpTruncate 1 None)); reflexivity.
Defined.

(** ** The bytes below the threshold *)

Lemma take_write_bytes m (data : list byte) off b :
  (m ≤ off)%nat → (m ≤ length data)%nat →
  take m (write_bytes data off b) = take m data.
Proof.
  intros Hoff Hlen. destruct b as [|x b]; [done|]. unfold write_bytes.
  rewrite take_app_le by (rewrite length_take; lia).
  rewrite take_take. f_equal. lia.
Qed.

Lemma take_resize_bytes m (data : list byte) n :
  (m ≤ n)%nat → (m ≤ length data)%nat →
  take m (resize_bytes data n) = take m data.
Proof.
  intros Hn Hlen. unfold resize_bytes.
  rewrite take_app_le by (rewrite length_take; lia).
  rewrite take_take. f_equal. lia.
Qed.

Lemma take_shorter m k (l1 l2 : list byte) :
  (m ≤ k)%nat → take k l1 = take k l2 → take m l1 = take m l2.
Proof.
  intros Hm H. rewrite <- (Nat.min_l m k Hm), <- !take_take. by rewrite H.
Qed.

Lemma WriteAt_prefix p off env tf w d fl :
  f tf = Some d → files w !! d = Some fl →
  ∃ fl', files (WriteAt p off env tf w).2 !! d = Some fl' ∧
    ∀ m, (m ≤ Z.to_nat off)%nat → (m ≤ length (contents fl))%nat →
         take m (contents fl') = take m (contents fl).
Proof.
  intros Hf Hl. rewrite WriteAt_delegates, Hf.
  destruct (os_File_WriteAt_open d fl p off env
              (world_before_delegation tf off w) Hl)
    as (k & n & err & _ & -> & _).
  eexists. split; [apply files_set_file|]. intros m Hm1 Hm2. simpl.
  by apply take_write_bytes.
Qed.

Lemma Truncate_prefix n env tf w d fl :
  f tf = Some d → files w !! d = Some fl →
  ∃ fl', files (Truncate n env tf w).2 !! d = Some fl' ∧
    ∀ m, (m ≤ Z.to_nat n)%nat → (m ≤ length (contents fl))%nat →
         take m (contents fl') = take m (contents fl).
Proof.
  intros Hf Hl. rewrite Truncate_delegates, Hf.
  destruct (os_File_Truncate_open d fl n env
              (world_before_delegation tf n w) Hl)
    as (fl' & err & -> & Hfail & Hok).
  exists fl'. split; [apply files_set_file|]. intros m Hm1 Hm2.
  destruct err as [e|].
  - by rewrite Hfail.
  - destruct Hok as [_ ->]; [done|]. simpl. by apply take_resize_bytes.
Qed.

Lemma step_unmodified_below seed o tf w :
  is_destroy o = false → Inv tf w → unmodified_below seed tf w →
  unmodified_below seed (step o tf w).1.2 (step o tf w).2.
Proof.
  intros Ho HI (data & Hc & Hpre).
  destruct (is_mutation o) eqn:Hmu.
  - destruct HI as (_ & d & fl & Hf & Hl & Hsz & _).
    unfold contents_of in Hc. rewrite Hf, Hl in Hc. simplify_eq/=.
    unfold file_size in Hsz.
    destruct o; try discriminate Hmu; simpl.
    + destruct (WriteAt_prefix p offset env tf w d fl Hf Hl)
        as (fl' & Hl' & Hkeep).
      pose proof (WriteAt_tf p offset env tf w) as Htf.
      destruct (WriteAt p offset env tf w) as [[r tf'] w']. simpl in *.
      subst tf'. exists (contents fl'). unfold contents_of. simpl.
      rewrite Hf, Hl'. split; [done|].
      rewrite Hkeep by lia. eapply take_shorter; [|exact Hpre]. lia.
    + destruct (Truncate_prefix n env tf w d fl Hf Hl)
        as (fl' & Hl' & Hkeep).
      pose proof (Truncate_tf n env tf w) as Htf.
      destruct (Truncate n env tf w) as [[r tf'] w']. simpl in *.
      subst tf'. exists (contents fl'). unfold contents_of. simpl.
      rewrite Hf, Hl'. split; [done|].
      rewrite Hkeep by lia. eapply take_shorter; [|exact Hpre]. lia.
  - exists data. rewrite (step_contents o tf w Hmu Ho), step_dirtyThreshold.
    split; [done|]. by destruct o.
Qed.

Lemma run_unmodified_below seed ops tf w :
  no_destroy ops = true → Inv tf w → unmodified_below seed tf w →
  unmodified_below seed (run ops tf w).1.2 (run ops tf w).2.
Proof.
  revert tf w. induction ops as [|o ops IH]; intros tf w Hops HI Hpre; simpl;
    [done|].
  simpl in Hops. apply andb_prop in Hops as [Ho Hops].
  apply negb_true_iff in Ho.
  pose proof (step_unmodified_below seed o tf w Ho HI Hpre) as Hpre1.
  destruct (step o tf w) as [[p tf1] w1] eqn:E.
  destruct (step_Inv _ _ HI _ _ _ _ Ho E) as [-> HI1]. by apply IH.
Qed.

(** X8. [dirtyThreshold] means what its comment says: after [NewTempFile]
    and any sequence of calls without [Destroy], whatever the file accepted
    or refused, the first [dirtyThreshold] bytes of the content are the first
    [dirtyThreshold] bytes the reader delivered at creation. *)
Theorem bytes_below_threshold_unmodified
    (content : Reader) (dir : string) (clk : Clock) (env : CreateEnv)
    (w : World) (tf : tempFile) (w1 : World) (ops : list Op) :
  NewTempFile content dir clk env w = ((Some tf, None), w1) ->
  no_destroy ops = true ->
  let '(_, tf', w') := run ops tf w1 in
  exists data,
    contents_of (f tf') w' = Some data /\
    take (Z.to_nat (dirtyThreshold tf')) data
    = take (Z.to_nat (dirtyThreshold tf')) (payload content).
Proof.
  intros Hnew Hops.
  assert (unmodified_below (payload content) tf w1) as Hpre.
  { destruct (NewTempFile_success _ _ _ _ _ _ _ Hnew) as (-> & Hfiles & _).
    exists (payload content). unfold contents_of. simpl.
    by rewrite Hfiles, lookup_insert_eq. }
  apply NewTempFile_Inv in Hnew.
  pose proof (run_unmodified_below _ ops tf w1 Hops Hnew Hpre) as H.
  by destruct (run ops tf w1) as [[p tf'] w'].
Qed.

Lemma bytes_below_threshold_unmodified_witness :
  let '(_, tf', w') :=
    run [OpWriteAt [Byte.x7a; Byte.x7a] 2 (Some (1%nat, Errno 28));
         OpTruncate 5 None; OpWriteAt [Byte.x7a] 1 None] ex_tf ex_w in
  exists data,
    contents_of (f tf') w' = Some data /\
    take (Z.to_nat (dirtyThreshold tf')) data
    = take (Z.to_nat (dirtyThreshold tf')) [Byte.x61; Byte.x62; Byte.x63].
Proof.
  apply (bytes_below_threshold_unmodified ex_content "" ex_clock ex_env w0
           ex_tf ex_w
           [OpWriteAt [Byte.x7a; Byte.x7a] 2 (Some (1%nat, Errno 28));
            OpTruncate 5 None; OpWriteAt [Byte.x7a] 1 None]);
    vm_compute; reflexivity.
Defined.

(** ** CheckInvariants as a checker, Destroy, and writing then reading *)

Lemma CheckInvariants_live tf w d fl :
  destroyed tf = false → f tf = Some d → files w !! d = Some fl →
  0 <= pos fl <= s_maxbytes w → file_size fl <= s_maxbytes w →
  CheckInvariants tf w =
    (if negb (dirtyThreshold tf <=? file_size fl)
     then Some (Mismatch (dirtyThreshold tf) (file_size fl))
     else if bool_decide (mtime tf = None)
               && negb (dirtyThreshold tf =? file_size fl)
     then Some (Mismatch (dirtyThreshold tf) (file_size fl))
     else None,
     tf,
     set_file d fl
       (emit (FileCall (Some d) (CSeek (pos fl) 0))
          (set_file d {| contents := contents fl; pos := file_size fl |}
             (emit (FileCall (Some d) (CSeek 0 2))
                (set_file d fl (emit (FileCall (Some d) (CSeek 0 1)) w)))))).
Proof.
  intros Hd Hf Hl Hpos Hsz. unfold CheckInvariants. rewrite Hd.
  unfold Seek at 1. rewrite Hf.
  rewrite (os_File_Seek_live d fl 0 1 w Hl);
    [| lia | change (0 <= pos fl + 0 <= s_maxbytes w); lia]. simpl.
  rewrite Z.add_0_r, File_eta.
  erewrite Stat_live; [|done|apply files_set_file|apply Hsz].
  cbn [DirtyThreshold Size].
  destruct (negb _); [|destruct (_ && _)]; cbn beta iota;
    unfold Seek; rewrite Hf;
    (erewrite os_File_Seek_live;
      [| apply files_set_file | by left
       | change (0 <= 0 + pos fl <= s_maxbytes w); lia]);
    simpl; by rewrite File_eta.
Qed.

(** X9. On a buffer that is not destroyed and whose file is open, with a
    seek position and a size within the limit of the file system (which is
    at most 2^63-1), [CheckInvariants] returns exactly
    when both INVARIANT comments hold, and otherwise panics with the
    mismatching threshold and size.  Either way it leaves the struct, every
    file (seek position included) and the clock as they were. *)
Theorem CheckInvariants_decides
    (tf : tempFile) (w : World) (d : fd) (fl : File) :
  destroyed tf = false ->
  f tf = Some d ->
  files w !! d = Some fl ->
  0 <= pos fl <= s_maxbytes w ->
  file_size fl <= s_maxbytes w ->
  let '(v, tf', w') := CheckInvariants tf w in
  tf' = tf /\ files w' = files w /\ ticks w' = ticks w /\
  (invariants_hold tf fl -> v = None) /\
  (~ invariants_hold tf fl ->
   v = Some (Mismatch (dirtyThreshold tf) (file_size fl))).
Proof.
  intros Hd Hf Hl Hpos Hsz.
  rewrite (CheckInvariants_live tf w d fl) by done.
  split; [done|]. split.
  { simpl. rewrite !insert_insert_eq. by apply insert_id. }
  split; [done|]. unfold invariants_hold.
  destruct (Z.leb_spec (dirtyThreshold tf) (file_size fl)) as [Hle|Hgt];
    simpl.
  - case_bool_decide as Hm; simpl.
    + destruct (Z.eqb_spec (dirtyThreshold tf) (file_size fl)) as [Heq|Hne];
        simpl; split; try done.
      * intros Hn. destruct Hn. done.
      * intros [_ Heq]. by destruct Hne; apply Heq.
    + split; [done|]. intros Hn. destruct Hn. done.
  - split; [|done]. intros [? _]. lia.
Qed.

Lemma CheckInvariants_decides_witness :
  let tf := {| clock := ex_clock; destroyed := false; f := Some 0%nat;
               dirtyThreshold := 5; mtime := Some 1 |} in
  let '(v, tf', w') := CheckInvariants tf ex_w in
  tf' = tf /\ files w' = files ex_w /\ ticks w' = ticks ex_w /\
  (invariants_hold tf
     {| contents := [Byte.x61; Byte.x62; Byte.x63]; pos := 3 |} ->
   v = None) /\
  (~ invariants_hold tf
       {| contents := [Byte.x61; Byte.x62; Byte.x63]; pos := 3 |} ->
   v = Some (Mismatch 5 3)).
Proof.
  apply (CheckInvariants_decides
           {| clock := ex_clock; destroyed := false; f := Some 0%nat;
              dirtyThreshold := 5; mtime := Some 1 |}
           ex_w 0%nat
           {| contents := [Byte.x61; Byte.x62; Byte.x63]; pos := 3 |});
    try reflexivity;
    unfold file_size, s_maxbytes, int64_max, ex_w, tmpfs_limit; simpl; lia.
Defined.

(** X10. [Destroy] on a buffer whose file is open marks it destroyed, closes
    that file and drops the handle; the threshold, [mtime] and the clock are
    left alone.  A second [Destroy] does not fail and changes neither the
    struct nor any file: the nil handle makes [Close] return an error, which
    [Destroy] ignores. *)
Theorem Destroy_closes_once
    (tf : tempFile) (w : World) (d : fd) (fl : File) :
  f tf = Some d ->
  files w !! d = Some fl ->
  let '(tf1, w1) := Destroy tf w in
  (destroyed tf1 = true /\ f tf1 = None /\
   dirtyThreshold tf1 = dirtyThreshold tf /\ mtime tf1 = mtime tf /\
   files w1 = delete d (files w) /\ ticks w1 = ticks w) /\
  let '(tf2, w2) := Destroy tf1 w1 in
  tf2 = tf1 /\ files w2 = files w1 /\ ticks w2 = ticks w1 /\
  trace w2 = trace w1 ++ [StoreDestroyed true; FileCall None CClose;
                          StoreF None].
Proof.
  intros Hf Hl. unfold Destroy, os_File_Close, checkValid. simpl.
  rewrite Hf, Hl. simpl. rewrite <- !app_assoc. done.
Qed.

Lemma Destroy_closes_once_witness :
  let '(tf1, w1) := Destroy ex_tf ex_w in
  (destroyed tf1 = true /\ f tf1 = None /\
   dirtyThreshold tf1 = dirtyThreshold ex_tf /\ mtime tf1 = mtime ex_tf /\
   files w1 = delete 0%nat (files ex_w) /\ ticks w1 = ticks ex_w) /\
  let '(tf2, w2) := Destroy tf1 w1 in
  tf2 = tf1 /\ files w2 = files w1 /\ ticks w2 = ticks w1 /\
  trace w2 = trace w1 ++ [StoreDestroyed true; FileCall None CClose;
                          StoreF None].
Proof.
  apply (Destroy_closes_once ex_tf ex_w 0%nat
           {| contents := [Byte.x61; Byte.x62; Byte.x63]; pos := 3 |});
    reflexivity.
Defined.

Lemma read_back (data : list byte) off b :
  take (length b) (drop off (write_bytes data off b)) = b.
Proof.
  destruct b as [|x b]; [done|]. unfold write_bytes.
  rewrite app_assoc, drop_app_length'.
  - apply take_app_length.
  - rewrite length_app, length_take, length_replicate. lia.
Qed.

(** X11. Writing then reading: on a buffer whose file is open, a [WriteAt]
    of [p] at a non-negative offset, ending within the limit of the file
    system and not failed by the environment, returns [len(p)] and no error,
    and a [ReadAt] of [len(p)] bytes at the same offset then returns [p]
    without error.  The seek position is not moved, and the size becomes the
    larger of the old size and [offset + len(p)] (it is unchanged when [p]
    is empty). *)
Theorem WriteAt_then_ReadAt
    (p : list byte) (offset : Z) (tf : tempFile) (w : World)
    (d : fd) (fl : File) :
  f tf = Some d ->
  files w !! d = Some fl ->
  0 <= offset ->
  offset + Z.of_nat (length p) <= s_maxbytes w ->
  let '((n, err), tf1, w1) := WriteAt p offset None tf w in
  n = Z.of_nat (length p) /\ err = None /\
  (ReadAt (length p) offset tf1 w1).1.1 = (p, None) /\
  cursor tf1 w1 = Some (pos fl) /\
  content_size tf1 w1 =
    Some (match p with
          | [] => file_size fl
          | _ :: _ => Z.max (file_size fl) (offset + Z.of_nat (length p))
          end).
Proof.
  intros Hf Hl Hoff Hmax. pose proof (s_maxbytes_bounds w) as Hb.
  rewrite WriteAt_delegates.
  unfold os_File_WriteAt, checkValid. rewrite Hf, files_emit.
  cbn [world_before_delegation files]. rewrite Hl.
  destruct (Z.ltb_spec offset 0); [lia|].
  case_bool_decide as Hp.
  - subst p. cbn [fst snd length].
    split; [done|]. split; [done|]. split.
    { rewrite (ReadAt_bytes 0 offset _ _ d fl); [done|done|done|lia|].
      change (Z.of_nat 0) with 0. lia. }
    unfold cursor, content_size, contents_of. simpl.
    by rewrite Hf, Hl.
  - assert (0 < length p)%nat as Hlen by (destruct p; [done|simpl; lia]).
    change (s_maxbytes (emit _ _)) with (s_maxbytes w).
    rewrite FD_Pwrite_all by lia.
    rewrite Nat.add_0_r, drop_0. cbn [fst snd].
    split; [done|]. split; [done|]. split.
    { erewrite ReadAt_bytes; [|done|apply files_set_file|lia|lia].
      cbn [contents]. by rewrite read_back, Nat.ltb_irrefl. }
    unfold cursor, content_size, contents_of. simpl.
    rewrite Hf, lookup_insert_eq. simpl.
    split; [done|]. rewrite length_write_bytes by done.
    destruct p; [done|]. unfold file_size. f_equal. lia.
Qed.

Lemma WriteAt_then_ReadAt_witness :
  let '((n, err), tf1, w1) :=
    WriteAt [Byte.x7a; Byte.x7a] 4 None ex_tf ex_w in
  n = 2 /\ err = None /\
  (ReadAt 2 4 tf1 w1).1.1 = ([Byte.x7a; Byte.x7a], None) /\
  cursor tf1 w1 = Some 3 /\
  content_size tf1 w1 = Some 6.
Proof.
  apply (WriteAt_then_ReadAt [Byte.x7a; Byte.x7a] 4 ex_tf ex_w 0%nat
           {| contents := [Byte.x61; Byte.x62; Byte.x63]; pos := 3 |});
    try reflexivity;
    unfold s_maxbytes, int64_max, ex_w, tmpfs_limit; simpl; lia.
Defined.

(** ** Seeking and reading at the limits *)

(** On ext4 a [Seek] to 2^50 is refused and the seek position stays at 0:
    the next [Read] returns the first bytes, where a [ReadAt] at 2^50
    returns none. *)
Example Seek_beyond_ext4_limit :
  let '(_, tf0, wa) := Seek 0 0 ex_tf ex_w_ext4 in
  let '(r, tf1, w1) := Seek (2 ^ 50) 0 tf0 wa in
  r = (0, Some EINVAL) /\
  cursor tf1 w1 = Some 0 /\
  (Read 2 tf1 w1).1.1 = ([Byte.x61; Byte.x62], None) /\
  (ReadAt 2 (2 ^ 50) tf1 w1).1.1 = ([], Some EOF).
Proof. vm_compute. done. Qed.

(** On tmpfs a [Seek] to 2^63-1 is accepted, and the next [Read] is refused
    with EINVAL. *)
Example Read_after_Seek_to_MaxInt64 :
  let '(r, tf1, w1) := Seek (2 ^ 63 - 1) 0 ex_tf ex_w in
  r = (2 ^ 63 - 1, None) /\
  (Read 5 tf1 w1).1.1 = ([], Some EINVAL) /\
  cursor tf1 (Read 5 tf1 w1).2 = Some (2 ^ 63 - 1).
Proof. vm_compute. done. Qed.

(** A [WriteAt] that fails after one byte reports a count of 0, though the
    byte is in the file. *)
Example WriteAt_failing_midway :
  let '(r, tf1, w1) :=
    WriteAt [Byte.x7a; Byte.x7a] 1 (Some (1%nat, Errno 28)) ex_tf ex_w in
  r = (0, Some (Errno 28)) /\
  contents_of (f tf1) w1 = Some [Byte.x61; Byte.x7a; Byte.x63].
Proof. vm_compute. done. Qed.

(** A [WriteAt] that would pass the largest offset is refused with EINVAL;
    one that starts beyond the limit of the file system with EFBIG. *)
Example WriteAt_beyond_the_limits :
  (WriteAt [Byte.x7a; Byte.x7a] (2 ^ 63 - 2) None ex_tf ex_w).1.1
    = (0, Some EINVAL) /\
  (WriteAt [Byte.x7a; Byte.x7a] (2 ^ 50) None ex_tf ex_w_ext4).1.1
    = (0, Some EFBIG).
Proof. vm_compute. done. Qed.







